(** * Per-type statement-and-image cache (odb/sqlite/simple-object-statements.hxx)

    A shallow embedding of [container_statement_cache_ptr],
    [object_statements_base], [optimistic_data] and [object_statements]:
    the reentrancy lock, the image-version counters, the lazily built
    prepared statements, the nested container statement cache, the
    delayed-load queue and its swap guard.

    Conventions.
    - [std::size_t] is a 64-bit unsigned integer, held as a [Z] in
      [0, 2^64); subtraction wraps around.
    - A member function is a function from the object's state to an
      [outcome]: it returns, it leaves by a C++ exception (the state
      reached so far is kept, destructors of live scoped objects have run),
      or an [assert] fails and the program is aborted.
    - Image buffers and [bind] arrays carry no behaviour of this header and
      are left out; a [binding&] is the name of the member it refers to. *)

From Stdlib Require Import ZArith List Bool String Lia.
Import ListNotations.
Local Open Scope Z_scope.

(** ** Machine integers *)

Definition size_t := Z.
Definition size_t_bits : Z := 64.
Definition size_t_modulus : Z := 2 ^ size_t_bits.

Definition is_size_t (n : Z) : Prop := 0 <= n < size_t_modulus.

(** [a - b] on [std::size_t]. *)
Definition size_t_sub (a b : size_t) : size_t := (a - b) mod size_t_modulus.

(** ** Outcomes of a call *)

(** [odb::exception] is abstract; all this header can observe of one is
    its [what ()]. *)
Definition exception := string.

Inductive outcome (S A : Type) : Type :=
| Returned (a : A) (s : S)      (* normal return *)
| Thrown (e : exception) (s : S) (* an exception leaves the call *)
| Aborted.                       (* a failed [assert] *)

Arguments Returned {S A} a s.
Arguments Thrown {S A} e s.
Arguments Aborted {S A}.

(** A member function: a computation on the object's state. *)
Definition M (S A : Type) : Type := S -> outcome S A.

Definition ret {S A} (a : A) : M S A := fun s => Returned a s.

Definition bind {S A B} (m : M S A) (f : A -> M S B) : M S B :=
  fun s =>
    match m s with
    | Returned a s' => f a s'
    | Thrown e s' => Thrown e s'
    | Aborted => Aborted
    end.

Definition gets {S A} (f : S -> A) : M S A := fun s => Returned (f s) s.
Definition modify {S} (f : S -> S) : M S unit := fun s => Returned tt (f s).
Definition throw {S A} (e : exception) : M S A := fun s => Thrown e s.
Definition abort {S A} : M S A := fun _ => Aborted.

(** [assert (b)]. *)
Definition assert {S} (b : bool) : M S unit := if b then ret tt else abort.

Declare Scope cxx_scope.
Delimit Scope cxx_scope with cxx.
Notation "x <- m ;; k" := (bind m (fun x => k))
  (at level 61, m at next level, right associativity) : cxx_scope.
Notation "m ;; k" := (bind m (fun _ => k))
  (at level 61, right associativity) : cxx_scope.
Local Open Scope cxx_scope.

(** A computation on a part of the state, run on the whole: [proj] reads
    the part and [put] writes it back, on return and on unwinding alike. *)
Definition zoom {S P A} (proj : S -> P) (put : P -> S -> S) (m : M P A)
  : M S A :=
  fun s =>
    match m (proj s) with
    | Returned a p => Returned a (put p s)
    | Thrown e p => Thrown e (put p s)
    | Aborted => Aborted
    end.

(** ** The static descriptor of a mapped type *)

Module object_traits.

(** Modelled from the spec: the per-type static descriptor
    [object_traits_impl<T, id_sqlite>] is generated code and not part of
    this header.  It supplies the five column counts and the five SQL
    texts. *)
Record t : Type := {
  column_count : size_t;
  inverse_column_count : size_t;
  managed_optimistic_column_count : size_t;
  id_column_count : size_t;
  readonly_column_count : size_t;
  persist_statement : string;
  find_statement : string;
  update_statement : string;
  erase_statement : string;
  optimistic_erase_statement : string
}.

(** Every count is a [std::size_t] value. *)
Definition counts_are_size_t (T : t) : Prop :=
  is_size_t (column_count T) /\ is_size_t (inverse_column_count T) /\
  is_size_t (managed_optimistic_column_count T) /\
  is_size_t (id_column_count T) /\ is_size_t (readonly_column_count T).

End object_traits.

(** ** Derived column counts (static members of [object_statements]) *)

Definition select_column_count (T : object_traits.t) : size_t :=
  object_traits.column_count T.

Definition insert_column_count (T : object_traits.t) : size_t :=
  size_t_sub
    (size_t_sub (object_traits.column_count T)
                (object_traits.inverse_column_count T))
    (object_traits.managed_optimistic_column_count T).

Definition update_column_count (T : object_traits.t) : size_t :=
  size_t_sub
    (size_t_sub (insert_column_count T) (object_traits.id_column_count T))
    (object_traits.readonly_column_count T).

Definition id_column_count (T : object_traits.t) : size_t :=
  object_traits.id_column_count T.

Definition managed_optimistic_column_count (T : object_traits.t) : size_t :=
  object_traits.managed_optimistic_column_count T.

(** The second template argument of [optimistic_data] in the member [od_]:
    [managed_optimistic_column_count != 0]. *)
Definition optimistic (T : object_traits.t) : bool :=
  negb (managed_optimistic_column_count T =? 0).

(** ** The statement layer *)

(** The members of type [binding]; a [binding&] handed to a statement is
    one of these names. *)
Inductive binding_ref : Type :=
| select_image_binding_ref
| insert_image_binding_ref
| update_image_binding_ref
| id_image_binding_ref
| optimistic_id_image_binding_ref.

(** Modelled from the spec: [binding] is declared in binding.hxx, which is
    not part of this header: an array of parameter slots (here its length)
    paired with a version counter. *)
Record binding : Type := { count : size_t; version : size_t }.

Inductive statement_type : Type :=
| insert_statement_type
| select_statement_type
| update_statement_type
| delete_statement_type.

(** A prepared statement object: its identity and the constructor
    arguments it was built from. *)
Record statement : Type := {
  st_handle : nat;
  st_type : statement_type;
  st_text : string;
  st_bindings : list binding_ref
}.

(** An object of the generated class [container_statement_cache_type]. *)
Record container_statement_cache_type : Type := {
  csc_handle : nat;
  csc_id : binding_ref
}.

(** Modelled from the spec: the connection and the constructors of the
    statement classes (statement.hxx) are not part of this header.  A
    constructor call either yields a fresh object or throws; which of the
    two is decided by the collaborator, here by the list [faults] ([Some e]
    makes the next construction throw [e]).  The connection records what
    was built against it. *)
Record connection : Type := {
  next_handle : nat;
  faults : list (option exception);
  prepared : list statement;
  caches : list container_statement_cache_type;
  released : list container_statement_cache_type
}.

(** Modelled from the spec: one constructor call of the statement layer
    (statement.hxx, not part of this header): the fault consumed, or a
    fresh handle. *)
Definition construct (c : connection) : (exception + nat) * connection :=
  match faults c with
  | Some e :: fs =>
      (inl e, {| next_handle := next_handle c; faults := fs;
                 prepared := prepared c; caches := caches c;
                 released := released c |})
  | None :: fs =>
      (inr (next_handle c),
       {| next_handle := S (next_handle c); faults := fs;
          prepared := prepared c; caches := caches c;
          released := released c |})
  | [] =>
      (inr (next_handle c),
       {| next_handle := S (next_handle c); faults := [];
          prepared := prepared c; caches := caches c;
          released := released c |})
  end.

(** Modelled from the spec: the statement constructors are not part of
    this header.  [new (details::shared) X_statement (conn, text,
    bindings...)] yields a statement built from its arguments, or throws. *)
Definition new_statement (ty : statement_type) (text : string)
    (bs : list binding_ref) : M connection statement := fun c =>
  match construct c with
  | (inl e, c') => Thrown e c'
  | (inr h, c') =>
      let st := {| st_handle := h; st_type := ty; st_text := text;
                   st_bindings := bs |} in
      Returned st {| next_handle := next_handle c'; faults := faults c';
                     prepared := prepared c' ++ [st]; caches := caches c';
                     released := released c' |}
  end.

(** Modelled from the spec: [container_statement_cache_type] is generated
    code.  [new T (conn, id)] yields a cache built against the connection
    and the id binding, or throws. *)
Definition new_container_statement_cache (id : binding_ref)
  : M connection container_statement_cache_type := fun c =>
  match construct c with
  | (inl e, c') => Thrown e c'
  | (inr h, c') =>
      let p := {| csc_handle := h; csc_id := id |} in
      Returned p {| next_handle := next_handle c'; faults := faults c';
                    prepared := prepared c'; caches := caches c' ++ [p];
                    released := released c' |}
  end.

(** Modelled from the spec: [delete p] of a generated
    [container_statement_cache_type]; the connection records the release. *)
Definition delete_container_statement_cache
    (p : container_statement_cache_type) (c : connection) : connection :=
  {| next_handle := next_handle c; faults := faults c;
     prepared := prepared c; caches := caches c;
     released := released c ++ [p] |}.

(** ** [container_statement_cache_ptr] *)

(** The only member function a [deleter_] ever points to. *)
Inductive member_function : Type := allocate_fn.

Record container_statement_cache_ptr : Type := {
  p_ : option container_statement_cache_type;
  deleter_ : option member_function (* [None]: not yet initialised *)
}.

Definition container_statement_cache_ptr_ctor : container_statement_cache_ptr :=
  {| p_ := None; deleter_ := None |}.

(** The state [allocate] works on: the pointer object and the connection
    the cache is built against. *)
Definition csc_state : Type := (container_statement_cache_ptr * connection)%type.

(** [allocate (c, id)]: allocator when [p_ == 0], deleter otherwise.  The
    arguments are null when it is called as the deleter; [delete p_]
    leaves [p_] as it is. *)
Definition allocate (args : option binding_ref) : M csc_state unit :=
  p <- gets (fun s => p_ (fst s)) ;;
  match p with
  | None =>
      match args with
      | Some id =>
          q <- zoom snd (fun c s => (fst s, c))
                 (new_container_statement_cache id) ;;
          modify (fun s => ({| p_ := Some q; deleter_ := Some allocate_fn |},
                            snd s))
      | None => abort (* [*c] with [c == 0] *)
      end
  | Some q => modify (fun s => (fst s, delete_container_statement_cache q (snd s)))
  end.

Definition get (id : binding_ref) : M csc_state container_statement_cache_type :=
  p <- gets (fun s => p_ (fst s)) ;;
  match p with
  | None => allocate (Some id)
  | Some _ => ret tt
  end ;;
  p' <- gets (fun s => p_ (fst s)) ;;
  match p' with
  | Some q => ret q
  | None => abort
  end.

Definition container_statement_cache_ptr_dtor : M csc_state unit :=
  p <- gets (fun s => p_ (fst s)) ;;
  match p with
  | Some _ =>
      d <- gets (fun s => deleter_ (fst s)) ;;
      match d with
      | Some allocate_fn => allocate None
      | None => abort
      end
  | None => ret tt
  end.

(** ** Delayed-load entries *)

(** The types the descriptor supplies: object ids, positions in the
    session's pointer cache, and addresses of objects and of loader
    functions. *)
Definition id_type := Z.
Definition position_type := Z.
Definition object_ptr := Z.

(** [loader_function]: a plain function pointer, [None] for the null
    pointer (the default loader is used). *)
Definition loader_function := option Z.

Record delayed_load : Type := {
  id : id_type;
  obj : object_ptr;
  pos : position_type;
  loader : loader_function
}.

Definition delayed_loads := list delayed_load.

(** ** [optimistic_data<T, optimistic>] *)

(** The specialisation for [true] has three members, the one for [false]
    has none. *)
Inductive optimistic_data : bool -> Type :=
| optimistic_data_true (id_image_version_ : size_t)
    (id_image_binding_ : binding) (erase_ : option statement)
  : optimistic_data true
| optimistic_data_false : optimistic_data false.

Definition od_id_image_version_ (d : optimistic_data true) : size_t :=
  match d in optimistic_data b return (if b then size_t else unit) with
  | optimistic_data_true v _ _ => v
  | optimistic_data_false => tt
  end.

Definition od_id_image_binding_ (d : optimistic_data true) : binding :=
  match d in optimistic_data b return (if b then binding else unit) with
  | optimistic_data_true _ b _ => b
  | optimistic_data_false => tt
  end.

Definition od_erase_ (d : optimistic_data true) : option statement :=
  match d in optimistic_data b return (if b then option statement else unit) with
  | optimistic_data_true _ _ e => e
  | optimistic_data_false => tt
  end.

(** What an [optimistic_data] object holds, whatever its specialisation. *)
Definition od_members {o} (d : optimistic_data o)
  : option (size_t * binding * option statement) :=
  match d with
  | optimistic_data_true v b e => Some (v, b, e)
  | optimistic_data_false => None
  end.

(** ** [object_statements<T>] *)

(** The data members of [object_statements_base] ([conn_] from
    [statements_base], [locked_]) and of [object_statements], for a mapped
    type whose [managed_optimistic_column_count != 0] is [o]. *)
Record object_statements (o : bool) : Type := {
  conn_ : connection;
  locked_ : bool;
  container_statement_cache_ : container_statement_cache_ptr;
  select_image_version_ : size_t;
  select_image_binding_ : binding;
  insert_image_version_ : size_t;
  insert_image_binding_ : binding;
  update_image_version_ : size_t;
  update_id_image_version_ : size_t;
  update_image_binding_ : binding;
  id_image_version_ : size_t;
  id_image_binding_ : binding;
  od_ : optimistic_data o;
  persist_ : option statement;
  find_ : option statement;
  update_ : option statement;
  erase_ : option statement;
  delayed_ : delayed_loads
}.

Arguments conn_ {o} _.
Arguments locked_ {o} _.
Arguments container_statement_cache_ {o} _.
Arguments select_image_version_ {o} _.
Arguments select_image_binding_ {o} _.
Arguments insert_image_version_ {o} _.
Arguments insert_image_binding_ {o} _.
Arguments update_image_version_ {o} _.
Arguments update_id_image_version_ {o} _.
Arguments update_image_binding_ {o} _.
Arguments id_image_version_ {o} _.
Arguments id_image_binding_ {o} _.
Arguments od_ {o} _.
Arguments persist_ {o} _.
Arguments find_ {o} _.
Arguments update_ {o} _.
Arguments erase_ {o} _.
Arguments delayed_ {o} _.

(** The cache of a mapped type [T]. *)
Definition statements_of (T : object_traits.t) : Type :=
  object_statements (optimistic T).

(** *** Assignment to one member *)

Definition set_conn_ {o} (x : connection) (s : object_statements o) : object_statements o :=
  {| conn_ := x; locked_ := locked_ s;
     container_statement_cache_ := container_statement_cache_ s;
     select_image_version_ := select_image_version_ s;
     select_image_binding_ := select_image_binding_ s;
     insert_image_version_ := insert_image_version_ s;
     insert_image_binding_ := insert_image_binding_ s;
     update_image_version_ := update_image_version_ s;
     update_id_image_version_ := update_id_image_version_ s;
     update_image_binding_ := update_image_binding_ s;
     id_image_version_ := id_image_version_ s;
     id_image_binding_ := id_image_binding_ s; od_ := od_ s;
     persist_ := persist_ s; find_ := find_ s; update_ := update_ s;
     erase_ := erase_ s; delayed_ := delayed_ s |}.

Definition set_locked_ {o} (x : bool) (s : object_statements o) : object_statements o :=
  {| conn_ := conn_ s; locked_ := x;
     container_statement_cache_ := container_statement_cache_ s;
     select_image_version_ := select_image_version_ s;
     select_image_binding_ := select_image_binding_ s;
     insert_image_version_ := insert_image_version_ s;
     insert_image_binding_ := insert_image_binding_ s;
     update_image_version_ := update_image_version_ s;
     update_id_image_version_ := update_id_image_version_ s;
     update_image_binding_ := update_image_binding_ s;
     id_image_version_ := id_image_version_ s;
     id_image_binding_ := id_image_binding_ s; od_ := od_ s;
     persist_ := persist_ s; find_ := find_ s; update_ := update_ s;
     erase_ := erase_ s; delayed_ := delayed_ s |}.

Definition set_container_statement_cache_ {o} (x : container_statement_cache_ptr) (s : object_statements o) : object_statements o :=
  {| conn_ := conn_ s; locked_ := locked_ s; container_statement_cache_ := x;
     select_image_version_ := select_image_version_ s;
     select_image_binding_ := select_image_binding_ s;
     insert_image_version_ := insert_image_version_ s;
     insert_image_binding_ := insert_image_binding_ s;
     update_image_version_ := update_image_version_ s;
     update_id_image_version_ := update_id_image_version_ s;
     update_image_binding_ := update_image_binding_ s;
     id_image_version_ := id_image_version_ s;
     id_image_binding_ := id_image_binding_ s; od_ := od_ s;
     persist_ := persist_ s; find_ := find_ s; update_ := update_ s;
     erase_ := erase_ s; delayed_ := delayed_ s |}.

Definition set_select_image_version_ {o} (x : size_t) (s : object_statements o) : object_statements o :=
  {| conn_ := conn_ s; locked_ := locked_ s;
     container_statement_cache_ := container_statement_cache_ s;
     select_image_version_ := x;
     select_image_binding_ := select_image_binding_ s;
     insert_image_version_ := insert_image_version_ s;
     insert_image_binding_ := insert_image_binding_ s;
     update_image_version_ := update_image_version_ s;
     update_id_image_version_ := update_id_image_version_ s;
     update_image_binding_ := update_image_binding_ s;
     id_image_version_ := id_image_version_ s;
     id_image_binding_ := id_image_binding_ s; od_ := od_ s;
     persist_ := persist_ s; find_ := find_ s; update_ := update_ s;
     erase_ := erase_ s; delayed_ := delayed_ s |}.

Definition set_insert_image_version_ {o} (x : size_t) (s : object_statements o) : object_statements o :=
  {| conn_ := conn_ s; locked_ := locked_ s;
     container_statement_cache_ := container_statement_cache_ s;
     select_image_version_ := select_image_version_ s;
     select_image_binding_ := select_image_binding_ s;
     insert_image_version_ := x;
     insert_image_binding_ := insert_image_binding_ s;
     update_image_version_ := update_image_version_ s;
     update_id_image_version_ := update_id_image_version_ s;
     update_image_binding_ := update_image_binding_ s;
     id_image_version_ := id_image_version_ s;
     id_image_binding_ := id_image_binding_ s; od_ := od_ s;
     persist_ := persist_ s; find_ := find_ s; update_ := update_ s;
     erase_ := erase_ s; delayed_ := delayed_ s |}.

Definition set_update_image_version_ {o} (x : size_t) (s : object_statements o) : object_statements o :=
  {| conn_ := conn_ s; locked_ := locked_ s;
     container_statement_cache_ := container_statement_cache_ s;
     select_image_version_ := select_image_version_ s;
     select_image_binding_ := select_image_binding_ s;
     insert_image_version_ := insert_image_version_ s;
     insert_image_binding_ := insert_image_binding_ s;
     update_image_version_ := x;
     update_id_image_version_ := update_id_image_version_ s;
     update_image_binding_ := update_image_binding_ s;
     id_image_version_ := id_image_version_ s;
     id_image_binding_ := id_image_binding_ s; od_ := od_ s;
     persist_ := persist_ s; find_ := find_ s; update_ := update_ s;
     erase_ := erase_ s; delayed_ := delayed_ s |}.

Definition set_update_id_image_version_ {o} (x : size_t) (s : object_statements o) : object_statements o :=
  {| conn_ := conn_ s; locked_ := locked_ s;
     container_statement_cache_ := container_statement_cache_ s;
     select_image_version_ := select_image_version_ s;
     select_image_binding_ := select_image_binding_ s;
     insert_image_version_ := insert_image_version_ s;
     insert_image_binding_ := insert_image_binding_ s;
     update_image_version_ := update_image_version_ s;
     update_id_image_version_ := x;
     update_image_binding_ := update_image_binding_ s;
     id_image_version_ := id_image_version_ s;
     id_image_binding_ := id_image_binding_ s; od_ := od_ s;
     persist_ := persist_ s; find_ := find_ s; update_ := update_ s;
     erase_ := erase_ s; delayed_ := delayed_ s |}.

Definition set_id_image_version_ {o} (x : size_t) (s : object_statements o) : object_statements o :=
  {| conn_ := conn_ s; locked_ := locked_ s;
     container_statement_cache_ := container_statement_cache_ s;
     select_image_version_ := select_image_version_ s;
     select_image_binding_ := select_image_binding_ s;
     insert_image_version_ := insert_image_version_ s;
     insert_image_binding_ := insert_image_binding_ s;
     update_image_version_ := update_image_version_ s;
     update_id_image_version_ := update_id_image_version_ s;
     update_image_binding_ := update_image_binding_ s;
     id_image_version_ := x; id_image_binding_ := id_image_binding_ s;
     od_ := od_ s; persist_ := persist_ s; find_ := find_ s;
     update_ := update_ s; erase_ := erase_ s; delayed_ := delayed_ s |}.

Definition set_od_ {o} (x : optimistic_data o) (s : object_statements o) : object_statements o :=
  {| conn_ := conn_ s; locked_ := locked_ s;
     container_statement_cache_ := container_statement_cache_ s;
     select_image_version_ := select_image_version_ s;
     select_image_binding_ := select_image_binding_ s;
     insert_image_version_ := insert_image_version_ s;
     insert_image_binding_ := insert_image_binding_ s;
     update_image_version_ := update_image_version_ s;
     update_id_image_version_ := update_id_image_version_ s;
     update_image_binding_ := update_image_binding_ s;
     id_image_version_ := id_image_version_ s;
     id_image_binding_ := id_image_binding_ s; od_ := x;
     persist_ := persist_ s; find_ := find_ s; update_ := update_ s;
     erase_ := erase_ s; delayed_ := delayed_ s |}.

Definition set_persist_ {o} (x : option statement) (s : object_statements o) : object_statements o :=
  {| conn_ := conn_ s; locked_ := locked_ s;
     container_statement_cache_ := container_statement_cache_ s;
     select_image_version_ := select_image_version_ s;
     select_image_binding_ := select_image_binding_ s;
     insert_image_version_ := insert_image_version_ s;
     insert_image_binding_ := insert_image_binding_ s;
     update_image_version_ := update_image_version_ s;
     update_id_image_version_ := update_id_image_version_ s;
     update_image_binding_ := update_image_binding_ s;
     id_image_version_ := id_image_version_ s;
     id_image_binding_ := id_image_binding_ s; od_ := od_ s; persist_ := x;
     find_ := find_ s; update_ := update_ s; erase_ := erase_ s;
     delayed_ := delayed_ s |}.

Definition set_find_ {o} (x : option statement) (s : object_statements o) : object_statements o :=
  {| conn_ := conn_ s; locked_ := locked_ s;
     container_statement_cache_ := container_statement_cache_ s;
     select_image_version_ := select_image_version_ s;
     select_image_binding_ := select_image_binding_ s;
     insert_image_version_ := insert_image_version_ s;
     insert_image_binding_ := insert_image_binding_ s;
     update_image_version_ := update_image_version_ s;
     update_id_image_version_ := update_id_image_version_ s;
     update_image_binding_ := update_image_binding_ s;
     id_image_version_ := id_image_version_ s;
     id_image_binding_ := id_image_binding_ s; od_ := od_ s;
     persist_ := persist_ s; find_ := x; update_ := update_ s;
     erase_ := erase_ s; delayed_ := delayed_ s |}.

Definition set_update_ {o} (x : option statement) (s : object_statements o) : object_statements o :=
  {| conn_ := conn_ s; locked_ := locked_ s;
     container_statement_cache_ := container_statement_cache_ s;
     select_image_version_ := select_image_version_ s;
     select_image_binding_ := select_image_binding_ s;
     insert_image_version_ := insert_image_version_ s;
     insert_image_binding_ := insert_image_binding_ s;
     update_image_version_ := update_image_version_ s;
     update_id_image_version_ := update_id_image_version_ s;
     update_image_binding_ := update_image_binding_ s;
     id_image_version_ := id_image_version_ s;
     id_image_binding_ := id_image_binding_ s; od_ := od_ s;
     persist_ := persist_ s; find_ := find_ s; update_ := x;
     erase_ := erase_ s; delayed_ := delayed_ s |}.

Definition set_erase_ {o} (x : option statement) (s : object_statements o) : object_statements o :=
  {| conn_ := conn_ s; locked_ := locked_ s;
     container_statement_cache_ := container_statement_cache_ s;
     select_image_version_ := select_image_version_ s;
     select_image_binding_ := select_image_binding_ s;
     insert_image_version_ := insert_image_version_ s;
     insert_image_binding_ := insert_image_binding_ s;
     update_image_version_ := update_image_version_ s;
     update_id_image_version_ := update_id_image_version_ s;
     update_image_binding_ := update_image_binding_ s;
     id_image_version_ := id_image_version_ s;
     id_image_binding_ := id_image_binding_ s; od_ := od_ s;
     persist_ := persist_ s; find_ := find_ s; update_ := update_ s;
     erase_ := x; delayed_ := delayed_ s |}.

Definition set_delayed_ {o} (x : delayed_loads) (s : object_statements o) : object_statements o :=
  {| conn_ := conn_ s; locked_ := locked_ s;
     container_statement_cache_ := container_statement_cache_ s;
     select_image_version_ := select_image_version_ s;
     select_image_binding_ := select_image_binding_ s;
     insert_image_version_ := insert_image_version_ s;
     insert_image_binding_ := insert_image_binding_ s;
     update_image_version_ := update_image_version_ s;
     update_id_image_version_ := update_id_image_version_ s;
     update_image_binding_ := update_image_binding_ s;
     id_image_version_ := id_image_version_ s;
     id_image_binding_ := id_image_binding_ s; od_ := od_ s;
     persist_ := persist_ s; find_ := find_ s; update_ := update_ s;
     erase_ := erase_ s; delayed_ := x |}.

(** Assignment to the members of [od_]. *)
Definition od_set_id_image_version_ (v : size_t) (d : optimistic_data true)
  : optimistic_data true :=
  optimistic_data_true v (od_id_image_binding_ d) (od_erase_ d).

Definition od_set_erase_ (e : option statement) (d : optimistic_data true)
  : optimistic_data true :=
  optimistic_data_true (od_id_image_version_ d) (od_id_image_binding_ d) e.

(** ** Member functions of [object_statements_base] *)

Section Base.

Context {o : bool}.

Definition lock : M (object_statements o) unit :=
  l <- gets locked_ ;;
  assert (negb l) ;;
  modify (set_locked_ true).

Definition unlock : M (object_statements o) unit :=
  l <- gets locked_ ;;
  assert l ;;
  modify (set_locked_ false).

Definition locked (s : object_statements o) : bool := locked_ s.

(** [object_statements_base (conn)]: [conn_ (conn), locked_ (false)];
    the remaining members are those of the derived class. *)
Definition object_statements_base_ctor (conn : connection) (rest : object_statements o)
  : object_statements o :=
  set_locked_ false (set_conn_ conn rest).

End Base.

(** ** Member functions of [object_statements<T>] *)

Section Statements.

Variable T : object_traits.t.
Context {o : bool}.

(** *** Delayed loading: the queue *)

(** [delayed_load (i, o, p, l)]. *)
Definition delayed_load_ctor (i : id_type) (ob : object_ptr)
    (p : position_type) (l : loader_function) : delayed_load :=
  {| id := i; obj := ob; pos := p; loader := l |}.

Definition delay_load (i : id_type) (ob : object_ptr) (p : position_type)
    (l : loader_function) : M (object_statements o) unit :=
  modify (fun s => set_delayed_ (delayed_ s ++ [delayed_load_ctor i ob p l]) s).

(** Modelled from the spec: [clear_delayed_ ()] is defined in
    simple-object-statements.txx, which is not part of this header.  It
    drops all pending entries without invoking their loaders. *)
Definition clear_delayed_ : M (object_statements o) unit :=
  modify (set_delayed_ []).

Definition clear_delayed : M (object_statements o) unit :=
  d <- gets delayed_ ;;
  match d with
  | [] => ret tt
  | _ :: _ => clear_delayed_
  end.

(** *** Image versions *)

Definition insert_image_version (s : object_statements o) : size_t := insert_image_version_ s.
Definition set_insert_image_version (v : size_t) : M (object_statements o) unit :=
  modify (set_insert_image_version_ v).
Definition insert_image_binding (s : object_statements o) : binding := insert_image_binding_ s.

Definition update_image_version (s : object_statements o) : size_t := update_image_version_ s.
Definition set_update_image_version (v : size_t) : M (object_statements o) unit :=
  modify (set_update_image_version_ v).
Definition update_id_image_version (s : object_statements o) : size_t :=
  update_id_image_version_ s.
Definition set_update_id_image_version (v : size_t) : M (object_statements o) unit :=
  modify (set_update_id_image_version_ v).
Definition update_image_binding (s : object_statements o) : binding := update_image_binding_ s.

Definition select_image_version (s : object_statements o) : size_t := select_image_version_ s.
Definition set_select_image_version (v : size_t) : M (object_statements o) unit :=
  modify (set_select_image_version_ v).
Definition select_image_binding (s : object_statements o) : binding := select_image_binding_ s.

Definition id_image_version (s : object_statements o) : size_t := id_image_version_ s.
Definition set_id_image_version (v : size_t) : M (object_statements o) unit :=
  modify (set_id_image_version_ v).
Definition id_image_binding (s : object_statements o) : binding := id_image_binding_ s.

(** *** Statements *)

(** [*p] for a [details::shared_ptr]. *)
Definition deref {S A} (p : option A) : M S A :=
  match p with
  | Some a => ret a
  | None => abort
  end.

Definition on_conn {A} (m : M connection A) : M (object_statements o) A :=
  zoom conn_ set_conn_ m.

Definition persist_statement : M (object_statements o) statement :=
  p <- gets persist_ ;;
  match p with
  | None =>
      st <- on_conn (new_statement insert_statement_type
                       (object_traits.persist_statement T)
                       [insert_image_binding_ref]) ;;
      modify (set_persist_ (Some st))
  | Some _ => ret tt
  end ;;
  p' <- gets persist_ ;;
  deref p'.

Definition find_statement : M (object_statements o) statement :=
  p <- gets find_ ;;
  match p with
  | None =>
      st <- on_conn (new_statement select_statement_type
                       (object_traits.find_statement T)
                       [id_image_binding_ref; select_image_binding_ref]) ;;
      modify (set_find_ (Some st))
  | Some _ => ret tt
  end ;;
  p' <- gets find_ ;;
  deref p'.

Definition update_statement : M (object_statements o) statement :=
  p <- gets update_ ;;
  match p with
  | None =>
      st <- on_conn (new_statement update_statement_type
                       (object_traits.update_statement T)
                       [update_image_binding_ref]) ;;
      modify (set_update_ (Some st))
  | Some _ => ret tt
  end ;;
  p' <- gets update_ ;;
  deref p'.

Definition erase_statement : M (object_statements o) statement :=
  p <- gets erase_ ;;
  match p with
  | None =>
      st <- on_conn (new_statement delete_statement_type
                       (object_traits.erase_statement T)
                       [id_image_binding_ref]) ;;
      modify (set_erase_ (Some st))
  | Some _ => ret tt
  end ;;
  p' <- gets erase_ ;;
  deref p'.

(** *** Container statement cache *)

Definition container_statment_cache : M (object_statements o) container_statement_cache_type :=
  zoom (fun s => (container_statement_cache_ s, conn_ s))
       (fun p s => set_conn_ (snd p) (set_container_statement_cache_ (fst p) s))
       (get id_image_binding_ref).

End Statements.

(** *** Members that use [od_]: instantiable only with
    [managed_optimistic_column_count != 0] *)

Section Optimistic.

Variable T : object_traits.t.

Definition optimistic_id_image_version (s : object_statements true) : size_t :=
  od_id_image_version_ (od_ s).

Definition set_optimistic_id_image_version (v : size_t) : M (object_statements true) unit :=
  modify (fun s => set_od_ (od_set_id_image_version_ v (od_ s)) s).

Definition optimistic_id_image_binding (s : object_statements true) : binding :=
  od_id_image_binding_ (od_ s).

Definition optimistic_erase_statement : M (object_statements true) statement :=
  p <- gets (fun s => od_erase_ (od_ s)) ;;
  match p with
  | None =>
      st <- on_conn (new_statement delete_statement_type
                       (object_traits.optimistic_erase_statement T)
                       [optimistic_id_image_binding_ref]) ;;
      modify (fun s => set_od_ (od_set_erase_ (Some st) (od_ s)) s)
  | Some _ => ret tt
  end ;;
  p' <- gets (fun s => od_erase_ (od_ s)) ;;
  deref p'.

End Optimistic.

(** ** The public interface as data *)

(** The image-version counters and the statement slots of a cache; the
    optimistic ones exist only in the [true] instantiation. *)
Inductive counter : bool -> Type :=
| select_image {o} : counter o
| insert_image {o} : counter o
| update_image {o} : counter o
| update_id_image {o} : counter o
| id_image {o} : counter o
| optimistic_id_image : counter true.

Inductive statement_slot : bool -> Type :=
| persist {o} : statement_slot o
| find {o} : statement_slot o
| update {o} : statement_slot o
| erase {o} : statement_slot o
| optimistic_erase : statement_slot true.

Definition image_version {o} (k : counter o) : object_statements o -> size_t :=
  match k in counter o return object_statements o -> size_t with
  | select_image => select_image_version
  | insert_image => insert_image_version
  | update_image => update_image_version
  | update_id_image => update_id_image_version
  | id_image => id_image_version
  | optimistic_id_image => optimistic_id_image_version
  end.

Definition set_image_version {o} (k : counter o) (v : size_t)
  : M (object_statements o) unit :=
  match k in counter o return M (object_statements o) unit with
  | select_image => set_select_image_version v
  | insert_image => set_insert_image_version v
  | update_image => set_update_image_version v
  | update_id_image => set_update_id_image_version v
  | id_image => set_id_image_version v
  | optimistic_id_image => set_optimistic_id_image_version v
  end.

(** The pointer member behind a statement accessor. *)
Definition slot_ptr {o} (k : statement_slot o)
  : object_statements o -> option statement :=
  match k in statement_slot o return object_statements o -> option statement with
  | persist => persist_
  | find => find_
  | update => update_
  | erase => erase_
  | optimistic_erase => fun s => od_erase_ (od_ s)
  end.

Definition the_statement (T : object_traits.t) {o} (k : statement_slot o)
  : M (object_statements o) statement :=
  match k in statement_slot o return M (object_statements o) statement with
  | persist => persist_statement T
  | find => find_statement T
  | update => update_statement T
  | erase => erase_statement T
  | optimistic_erase => optimistic_erase_statement T
  end.

(** What a call hands back. *)
Inductive value : Type :=
| v_void
| v_bool (b : bool)
| v_size_t (n : size_t)
| v_statement (st : statement)
| v_container_statement_cache (c : container_statement_cache_type).

(** The calls a client (or a loader) can make on a cache without running a
    loader. *)
Inductive call (o : bool) : Type :=
| call_lock
| call_unlock
| call_locked
| call_delay_load (i : id_type) (ob : object_ptr) (p : position_type)
    (l : loader_function)
| call_clear_delayed
| call_image_version (k : counter o)
| call_set_image_version (k : counter o) (v : size_t)
| call_statement (k : statement_slot o)
| call_container_statment_cache.

Arguments call_lock {o}.
Arguments call_unlock {o}.
Arguments call_locked {o}.
Arguments call_delay_load {o} i ob p l.
Arguments call_clear_delayed {o}.
Arguments call_image_version {o} k.
Arguments call_set_image_version {o} k v.
Arguments call_statement {o} k.
Arguments call_container_statment_cache {o}.

Section Interface.

Variable T : object_traits.t.
Context {o : bool}.

Definition exec (c : call o) : M (object_statements o) value :=
  match c with
  | call_lock => lock ;; ret v_void
  | call_unlock => unlock ;; ret v_void
  | call_locked => b <- gets locked ;; ret (v_bool b)
  | call_delay_load i ob p l => delay_load i ob p l ;; ret v_void
  | call_clear_delayed => clear_delayed ;; ret v_void
  | call_image_version k => n <- gets (image_version k) ;; ret (v_size_t n)
  | call_set_image_version k v => set_image_version k v ;; ret v_void
  | call_statement k => st <- the_statement T k ;; ret (v_statement st)
  | call_container_statment_cache =>
      c <- container_statment_cache ;; ret (v_container_statement_cache c)
  end.

Fixpoint exec_all (cs : list (call o)) : M (object_statements o) unit :=
  match cs with
  | [] => ret tt
  | c :: cs' => exec c ;; exec_all cs'
  end.

(** *** Loaders *)

(** Modelled from the spec: the loader functions and the default loader
    (the descriptor's [find_], [init] and [load_]) are not part of this
    header.  What a loader does to the cache it was queued on is a series
    of calls, after which it returns or throws.  A call that throws or
    aborts ends the loader there. *)
Record loader_body : Type := {
  body : list (call o);
  raises : option exception
}.

(** The code behind each entry: the function its [loader] points to, or
    the default loader of the descriptor when [loader] is null. *)
Variable loaders : delayed_load -> loader_body.

Definition invoke (l : delayed_load) : M (object_statements o) unit :=
  exec_all (body (loaders l)) ;;
  match raises (loaders l) with
  | Some e => throw e
  | None => ret tt
  end.

(** *** The swap guard *)

(** The two vectors a [swap_guard] refers to: [dl_] and the cache. *)
Definition guarded : Type := (delayed_loads * object_statements o)%type.

(** [dl_.swap (os_.delayed_)]. *)
Definition swap (g : guarded) : guarded :=
  (delayed_ (snd g), set_delayed_ (fst g) (snd g)).

Definition swap_guard_ctor : M guarded unit := modify swap.

Definition swap_guard_dtor : M guarded unit :=
  zoom snd (fun s g => (fst g, s)) clear_delayed ;;
  modify swap.

(** *** Draining the queue *)

(** The cache together with the loader invocations made so far (oldest
    first).  The record of invocations is an observer's: no member
    function reads it and no loader can reach it. *)
Definition traced : Type := (list delayed_load * object_statements o)%type.

Definition on_cache {A} (m : M (object_statements o) A) : M traced A :=
  zoom snd (fun s w => (fst w, s)) m.

(** The body of [load_delayed_]: its local vector and the traced cache. *)
Definition drain_state : Type := (delayed_loads * traced)%type.

Definition on_guard {A} (m : M guarded A) : M drain_state A :=
  zoom (fun d => (fst d, snd (snd d)))
       (fun g d => (fst g, (fst (snd d), snd g))) m.

(** [m], then [d] when the scope is left: on return and while an
    exception unwinds.  A destructor that throws while unwinding ends the
    program. *)
Definition finally {S A} (m : M S A) (d : M S unit) : M S A :=
  fun s =>
    match m s with
    | Returned a s' => (d ;; ret a) s'
    | Thrown e s' =>
        match d s' with
        | Returned _ s'' => Thrown e s''
        | _ => Aborted
        end
    | Aborted => Aborted
    end.

(** A local variable of a function body. *)
Definition with_local {L S A} (init : L) (m : M (L * S) A) : M S A :=
  fun s =>
    match m (init, s) with
    | Returned a ls => Returned a (snd ls)
    | Thrown e ls => Thrown e (snd ls)
    | Aborted => Aborted
    end.

(** Modelled from the spec: one turn of the loop of [load_delayed_ ()]
    (simple-object-statements.txx, not part of this header).  The entry is
    taken off the working list, then its loader runs. *)
Definition load_one (l : delayed_load) (rest : delayed_loads)
  : M drain_state unit :=
  modify (fun d => (rest, (fst (snd d) ++ [l], snd (snd d)))) ;;
  zoom snd (fun w d => (fst d, w)) (on_cache (invoke l)).

(** Modelled from the spec: the loop of [load_delayed_ ()] over the
    working list, from its front.  The list is a local of [load_delayed_]
    that no loader can reach, so the recursion follows it; what is left of
    it is kept in the state for the guard. *)
Fixpoint drain (dls : delayed_loads) : M drain_state unit :=
  match dls with
  | [] => ret tt
  | l :: rest => load_one l rest ;; drain rest
  end.

(** Modelled from the spec: [load_delayed_ ()] is defined in
    simple-object-statements.txx, which is not part of this header.  The
    pending list is swapped into a local working list by a [swap_guard]
    before processing begins; every entry of the working list is
    processed, in the order of enqueueing; the guard's destructor runs on
    every way out. *)
Definition load_delayed_ : M traced unit :=
  with_local []
    (on_guard swap_guard_ctor ;;
     finally (dls <- gets fst ;; drain dls) (on_guard swap_guard_dtor)).

Definition load_delayed : M traced unit :=
  l <- gets (fun w => locked (snd w)) ;;
  assert l ;;
  d <- gets (fun w => delayed_ (snd w)) ;;
  match d with
  | [] => ret tt
  | _ :: _ => load_delayed_
  end.

(** *** Sequences of public operations *)

Inductive op : Type :=
| op_call (c : call o)
| op_load_delayed.

Definition step (x : op) : M traced value :=
  match x with
  | op_call c => on_cache (exec c)
  | op_load_delayed => load_delayed ;; ret v_void
  end.

(** How one operation of a sequence ended. *)
Inductive event : Type :=
| returned (v : value)
| threw (e : exception).

(** A client performs the operations in turn; an exception is caught by
    the client, which goes on with the next operation; a failed
    assertion ends the run ([None]). *)
Fixpoint run (xs : list op) (w : traced) : list event * option traced :=
  match xs with
  | [] => ([], Some w)
  | x :: xs' =>
      match step x w with
      | Returned v w' => let (evs, r) := run xs' w' in (returned v :: evs, r)
      | Thrown e w' => let (evs, r) := run xs' w' in (threw e :: evs, r)
      | Aborted => ([], None)
      end
  end.

(** *** [auto_lock] *)

(** An [auto_lock] object: its [locked_] member ([s_] is the cache the
    functions below work on). *)
Record auto_lock : Type := { al_locked_ : bool }.

(** Modelled from the spec: the constructor and the destructor of
    [auto_lock] are defined in simple-object-statements.ixx, which is not
    part of this header.  Locking an already locked cache does not fault
    and leaves the object not holding the lock; locking a free cache
    succeeds. *)
Definition auto_lock_ctor : M (object_statements o) auto_lock :=
  l <- gets locked ;;
  if l then ret {| al_locked_ := false |}
  else lock ;; ret {| al_locked_ := true |}.

(** Modelled from the spec: [auto_lock::locked ()] (body in the same
    file): whether this object holds the lock. *)
Definition auto_lock_locked (a : auto_lock) : bool := al_locked_ a.

(** Modelled from the spec: on destruction an [auto_lock] that holds the
    lock unlocks the cache and clears the still pending delayed loads;
    one that does not hold it does nothing. *)
Definition auto_lock_dtor (a : auto_lock) : M (object_statements o) unit :=
  if al_locked_ a then unlock ;; clear_delayed else ret tt.

End Interface.

(** ** Example data *)

Definition example_traits : object_traits.t :=
  {| object_traits.column_count := 10;
     object_traits.inverse_column_count := 2;
     object_traits.managed_optimistic_column_count := 1;
     object_traits.id_column_count := 1;
     object_traits.readonly_column_count := 1;
     object_traits.persist_statement := "INSERT INTO t VALUES (?)";
     object_traits.find_statement := "SELECT * FROM t WHERE id=?";
     object_traits.update_statement := "UPDATE t SET v=? WHERE id=?";
     object_traits.erase_statement := "DELETE FROM t WHERE id=?";
     object_traits.optimistic_erase_statement :=
       "DELETE FROM t WHERE id=? AND version=?" |}.

(** The same type without a managed optimistic column. *)
Definition plain_traits : object_traits.t :=
  {| object_traits.column_count := 9;
     object_traits.inverse_column_count := 2;
     object_traits.managed_optimistic_column_count := 0;
     object_traits.id_column_count := 1;
     object_traits.readonly_column_count := 1;
     object_traits.persist_statement := "INSERT INTO t VALUES (?)";
     object_traits.find_statement := "SELECT * FROM t WHERE id=?";
     object_traits.update_statement := "UPDATE t SET v=? WHERE id=?";
     object_traits.erase_statement := "DELETE FROM t WHERE id=?";
     object_traits.optimistic_erase_statement := "" |}.

Definition example_connection : connection :=
  {| next_handle := 0; faults := []; prepared := []; caches := [];
     released := [] |}.

Definition example_binding : binding := {| count := 0; version := 0 |}.

(** An unlocked cache with nothing built and nothing pending. *)
Definition example_cache {o} (d : optimistic_data o) : object_statements o :=
  {| conn_ := example_connection; locked_ := false;
     container_statement_cache_ := container_statement_cache_ptr_ctor;
     select_image_version_ := 0; select_image_binding_ := example_binding;
     insert_image_version_ := 5; insert_image_binding_ := example_binding;
     update_image_version_ := 0; update_id_image_version_ := 0;
     update_image_binding_ := example_binding;
     id_image_version_ := 0; id_image_binding_ := example_binding;
     od_ := d; persist_ := None; find_ := None; update_ := None;
     erase_ := None; delayed_ := [] |}.

Definition example_statements : statements_of example_traits :=
  example_cache (optimistic_data_true 0 example_binding None).

Definition plain_statements : statements_of plain_traits :=
  example_cache optimistic_data_false.

(** ** Parts of the state *)

(** Every member but [locked_]. *)
Definition members_but_locked {o} (s : object_statements o) :=
  (conn_ s, container_statement_cache_ s,
   (select_image_version_ s, select_image_binding_ s),
   (insert_image_version_ s, insert_image_binding_ s),
   (update_image_version_ s, update_id_image_version_ s, update_image_binding_ s),
   (id_image_version_ s, id_image_binding_ s), od_ s,
   (persist_ s, find_ s, update_ s, erase_ s), delayed_ s).

(** Every member but [delayed_]. *)
Definition members_but_delayed {o} (s : object_statements o) :=
  (conn_ s, locked_ s, container_statement_cache_ s,
   (select_image_version_ s, select_image_binding_ s),
   (insert_image_version_ s, insert_image_binding_ s),
   (update_image_version_ s, update_id_image_version_ s, update_image_binding_ s),
   (id_image_version_ s, id_image_binding_ s), od_ s,
   (persist_ s, find_ s, update_ s, erase_ s)).


(** ** Naming counters and slots *)

Definition counter_index {o} (k : counter o) : nat :=
  match k with
  | select_image => 0
  | insert_image => 1
  | update_image => 2
  | update_id_image => 3
  | id_image => 4
  | optimistic_id_image => 5
  end.

Definition same_counter {o} (k k' : counter o) : bool :=
  Nat.eqb (counter_index k) (counter_index k').

Definition is_optimistic_counter {o} (k : counter o) : bool :=
  match k with
  | optimistic_id_image => true
  | _ => false
  end.

Definition is_optimistic_slot {o} (k : statement_slot o) : bool :=
  match k with
  | optimistic_erase => true
  | _ => false
  end.

(** Every member that is neither an image version nor part of [od_]. *)
Definition members_but_versions {o} (s : object_statements o) :=
  (conn_ s, locked_ s, container_statement_cache_ s,
   (select_image_binding_ s, insert_image_binding_ s,
    update_image_binding_ s, id_image_binding_ s),
   (persist_ s, find_ s, update_ s, erase_ s), delayed_ s).

(** The members of [od_] other than its image version. *)
Definition od_but_version {o} (d : optimistic_data o)
  : option (binding * option statement) :=
  match d with
  | optimistic_data_true _ b e => Some (b, e)
  | optimistic_data_false => None
  end.


(** ** Example loaders *)

(** The function at address 1 queues a further load (id 3) and returns;
    the function at address 2 throws; every other loader, the default one
    included, just returns. *)
Definition example_loaders {o} (l : delayed_load) : @loader_body o :=
  match loader l with
  | Some 1 => {| body := [call_delay_load 3 300 2 None]; raises := None |}
  | Some 2 => {| body := []; raises := Some "object not persistent"%string |}
  | _ => {| body := []; raises := None |}
  end.

(** Loaders that queue a further load (id 3) and return. *)
Definition queueing_loaders {o} (l : delayed_load) : @loader_body o :=
  {| body := [call_delay_load 3 300 2 None]; raises := None |}.

Definition entry (i : id_type) : delayed_load :=
  delayed_load_ctor i (100 * i) 0 None.

(** An entry with a custom loader, the function at address [f]. *)
Definition custom_entry (i : id_type) (f : Z) : delayed_load :=
  delayed_load_ctor i (100 * i) 0 (Some f).

(** A locked cache with the given entries pending. *)
Definition locked_with (q : delayed_loads) : statements_of example_traits :=
  set_delayed_ q (set_locked_ true example_statements).

(** ** Properties kept by a member function *)

(** [P] holds after [m] whenever it held before, on return and on an
    exception alike. *)
Definition preserves {S A} (P : S -> Prop) (m : M S A) : Prop :=
  forall s, P s ->
    match m s with
    | Returned _ s' => P s'
    | Thrown _ s' => P s'
    | Aborted => True
    end.

(** ** Which accessor built a statement *)











(** ** What a sequence stores into a counter *)

(** Every value call [c] stores into counter [k] satisfies [Q]. *)
Definition call_stores {o} (Q : size_t -> Prop) (k : counter o) (c : call o)
  : Prop :=
  match c with
  | call_set_image_version k' v => same_counter k k' = true -> Q v
  | _ => True
  end.


(** The calls a client makes itself in operation [x] are all [good]. *)
Definition good_op {o} (good : call o -> Prop) (x : @op o) : Prop :=
  match x with
  | op_call c => good c
  | op_load_delayed => True
  end.

Definition op_stores {o} (Q : size_t -> Prop) (k : counter o) : @op o -> Prop :=
  good_op (call_stores Q k).

(** ** Sizes of the bind arrays *)

(** [a + b] on [std::size_t]. *)
Definition size_t_add (a b : size_t) : size_t := (a + b) mod size_t_modulus.

(** The bounds of the array members [select_image_bind_],
    [select_image_truncated_], [insert_image_bind_] and
    [update_image_bind_]. *)
Definition select_image_bind_size (T : object_traits.t) : size_t :=
  select_column_count T.

Definition select_image_truncated_size (T : object_traits.t) : size_t :=
  select_column_count T.

Definition insert_image_bind_size (T : object_traits.t) : size_t :=
  insert_column_count T.

Definition update_image_bind_size (T : object_traits.t) : size_t :=
  size_t_add
    (size_t_add (update_column_count T) (id_column_count T))
    (managed_optimistic_column_count T).

(** ** Series of calls *)

(** [lock ()] for [true], [unlock ()] for [false]. *)
Definition lock_call {o} (b : bool) : call o :=
  if b then call_lock else call_unlock.

(** Starting from lock state [cur], every call of the series finds the
    lock in the state opposite to the one it sets. *)
Fixpoint alternates (cur : bool) (bs : list bool) : bool :=
  match bs with
  | [] => true
  | b :: bs' => negb (Bool.eqb b cur) && alternates b bs'
  end.



Definition slot_index {o} (k : statement_slot o) : nat :=
  match k with
  | persist => 0
  | find => 1
  | update => 2
  | erase => 3
  | optimistic_erase => 4
  end.

Definition same_slot {o} (k k' : statement_slot o) : bool :=
  Nat.eqb (slot_index k) (slot_index k').

(** ** Life of a [container_statement_cache_ptr] *)

(** [n] calls of [get] in a row by a client that catches what a call
    throws; [None] if a call aborts. *)
Fixpoint get_repeatedly (n : nat) (id : binding_ref) (s : csc_state)
  : option csc_state :=
  match n with
  | O => Some s
  | S n' =>
      match get id s with
      | Returned _ s' | Thrown _ s' => get_repeatedly n' id s'
      | Aborted => None
      end
  end.

(** Relative to the connection [c0] the pointer object was created on:
    nothing was built or released while the pointer is null; otherwise the
    deleter is set and the one cache built is the one pointed to. *)
Definition ptr_accounted (c0 : connection) (s : csc_state) : Prop :=
  released (snd s) = released c0 /\
  match p_ (fst s) with
  | None => caches (snd s) = caches c0
  | Some q =>
      deleter_ (fst s) = Some allocate_fn /\ caches (snd s) = caches c0 ++ [q]
  end.

(** A descriptor that subtracts more columns than it has. *)
Definition underflowing_traits : object_traits.t :=
  {| object_traits.column_count := 1;
     object_traits.inverse_column_count := 2;
     object_traits.managed_optimistic_column_count := 0;
     object_traits.id_column_count := 1;
     object_traits.readonly_column_count := 0;
     object_traits.persist_statement := "";
     object_traits.find_statement := "";
     object_traits.update_statement := "";
     object_traits.erase_statement := "";
     object_traits.optimistic_erase_statement := "" |}.

(** A connection on which the first construction throws and the second
    succeeds. *)
Definition faulty_connection : connection :=
  {| next_handle := 0; faults := [Some "out of memory"%string; None];
     prepared := []; caches := []; released := [] |}.

(** ** Loaders that return *)


(** ** Basic facts about the member functions *)

Lemma lock_spec {o} (s : object_statements o) :
  lock s = if locked s then Aborted else Returned tt (set_locked_ true s).
Proof.
  unfold lock, locked, bind, gets, assert, modify.
  destruct (locked_ s); reflexivity.
Qed.

Lemma unlock_spec {o} (s : object_statements o) :
  unlock s = if locked s then Returned tt (set_locked_ false s) else Aborted.
Proof.
  unfold unlock, locked, bind, gets, assert, modify.
  destruct (locked_ s); reflexivity.
Qed.

Lemma delay_load_spec {o} i ob p l (s : object_statements o) :
  delay_load i ob p l s =
  Returned tt (set_delayed_ (delayed_ s ++ [delayed_load_ctor i ob p l]) s).
Proof. reflexivity. Qed.

Lemma clear_delayed_spec {o} (s : object_statements o) :
  clear_delayed s = Returned tt (set_delayed_ [] s).
Proof.
  unfold clear_delayed, clear_delayed_, bind, gets, modify, ret.
  destruct s as [? ? ? ? ? ? ? ? ? ? ? ? ? ? ? ? ? d]; destruct d; reflexivity.
Qed.

Lemma size_t_modulus_value : size_t_modulus = 18446744073709551616.
Proof. reflexivity. Qed.

Lemma size_t_sub_exact (a b : Z) :
  is_size_t a -> 0 <= b <= a -> size_t_sub a b = a - b.
Proof.
  unfold size_t_sub, is_size_t. intros Ha Hb.
  apply Z.mod_small. lia.
Qed.

Lemma size_t_sub_sub (a b c : Z) :
  size_t_sub (size_t_sub a b) c = (a - b - c) mod size_t_modulus.
Proof.
  unfold size_t_sub. apply Zminus_mod_idemp_l.
Qed.

(** ** The lock *)

(** C5.  [lock ()] faults on a locked cache and otherwise marks it locked;
    [unlock ()] faults on an unlocked cache and otherwise marks it
    unlocked; two [lock ()] calls in a row fault whatever the state; the
    flag that [locked ()] reports is the only member either of them
    changes. *)
Theorem lock_unlock_contract :
  forall (o : bool) (s : object_statements o),
    lock s = (if locked s then Aborted else Returned tt (set_locked_ true s)) /\
    unlock s = (if locked s then Returned tt (set_locked_ false s) else Aborted) /\
    (lock ;; lock) s = Aborted /\
    (unlock ;; unlock) s = Aborted /\
    (forall b : bool,
        locked (set_locked_ b s) = b /\
        members_but_locked (set_locked_ b s) = members_but_locked s).
Proof.
  intros o s. split; [apply lock_spec|]. split; [apply unlock_spec|].
  split; [|split].
  - unfold bind. rewrite lock_spec. destruct (locked s) eqn:E; [reflexivity|].
    rewrite lock_spec. reflexivity.
  - unfold bind. rewrite unlock_spec. destruct (locked s) eqn:E; [|reflexivity].
    rewrite unlock_spec. reflexivity.
  - intros b. split; reflexivity.
Qed.

(** ** Derived column counts *)

(** C7.  [select = total]; [insert = total - inverse - managed_optimistic]
    and [update = insert - id - readonly] in [std::size_t] arithmetic, and
    as plain integers whenever the subtracted columns are among those they
    are subtracted from; for total 10, inverse 2, managed optimistic 1, id
    1 and readonly 1 the counts are insert 7 and update 5. *)
Theorem column_count_identities :
  forall T : object_traits.t,
    select_column_count T = object_traits.column_count T /\
    insert_column_count T =
      (object_traits.column_count T - object_traits.inverse_column_count T
       - object_traits.managed_optimistic_column_count T) mod size_t_modulus /\
    update_column_count T =
      (insert_column_count T - object_traits.id_column_count T
       - object_traits.readonly_column_count T) mod size_t_modulus /\
    (object_traits.counts_are_size_t T ->
     object_traits.inverse_column_count T
       + object_traits.managed_optimistic_column_count T
       + object_traits.id_column_count T
       + object_traits.readonly_column_count T
       <= object_traits.column_count T ->
     insert_column_count T =
       object_traits.column_count T - object_traits.inverse_column_count T
       - object_traits.managed_optimistic_column_count T /\
     update_column_count T =
       insert_column_count T - object_traits.id_column_count T
       - object_traits.readonly_column_count T) /\
    (object_traits.column_count T = 10 ->
     object_traits.inverse_column_count T = 2 ->
     object_traits.managed_optimistic_column_count T = 1 ->
     object_traits.id_column_count T = 1 ->
     object_traits.readonly_column_count T = 1 ->
     insert_column_count T = 7 /\ update_column_count T = 5).
Proof.
  intros T. split; [reflexivity|].
  split; [apply size_t_sub_sub|]. split; [apply size_t_sub_sub|].
  assert (exact :
    object_traits.counts_are_size_t T ->
    object_traits.inverse_column_count T
      + object_traits.managed_optimistic_column_count T
      + object_traits.id_column_count T
      + object_traits.readonly_column_count T
      <= object_traits.column_count T ->
    insert_column_count T =
      object_traits.column_count T - object_traits.inverse_column_count T
      - object_traits.managed_optimistic_column_count T /\
    update_column_count T =
      insert_column_count T - object_traits.id_column_count T
      - object_traits.readonly_column_count T).
  { intros (Ht & Hi & Hm & Hd & Hr) Hle.
    unfold is_size_t in *.
    assert (Hins : insert_column_count T =
      object_traits.column_count T - object_traits.inverse_column_count T
      - object_traits.managed_optimistic_column_count T).
    { unfold insert_column_count.
      rewrite (size_t_sub_exact (object_traits.column_count T)) by
        (unfold is_size_t; lia).
      apply size_t_sub_exact; unfold is_size_t; lia. }
    split; [exact Hins|].
    unfold update_column_count. rewrite Hins.
    rewrite (size_t_sub_exact _ (object_traits.id_column_count T)) by
      (unfold is_size_t; lia).
    apply size_t_sub_exact; unfold is_size_t; lia. }
  split; [exact exact|].
  intros Ht Hi Hm Hd Hr.
  assert (Hsz : object_traits.counts_are_size_t T).
  { unfold object_traits.counts_are_size_t, is_size_t.
    rewrite Ht, Hi, Hm, Hd, Hr, size_t_modulus_value.
    repeat split; lia. }
  destruct (exact Hsz) as [Hins Hupd]; [lia|].
  rewrite Hupd, Hins, Ht, Hi, Hm, Hd, Hr. split; reflexivity.
Qed.

Lemma column_count_identities_witness :
  insert_column_count example_traits = 7 /\
  update_column_count example_traits = 5 /\
  insert_column_count example_traits = 10 - 2 - 1 /\
  update_column_count example_traits = insert_column_count example_traits - 1 - 1.
Proof.
  destruct (column_count_identities example_traits)
    as (_ & _ & _ & Hexact & Hten).
  destruct (Hten eq_refl eq_refl eq_refl eq_refl eq_refl) as [Hi Hu].
  assert (Hsz : object_traits.counts_are_size_t example_traits).
  { unfold object_traits.counts_are_size_t, is_size_t; simpl.
    rewrite size_t_modulus_value. repeat split; lia. }
  assert (Hle : object_traits.inverse_column_count example_traits
       + object_traits.managed_optimistic_column_count example_traits
       + object_traits.id_column_count example_traits
       + object_traits.readonly_column_count example_traits
       <= object_traits.column_count example_traits) by (simpl; lia).
  destruct (Hexact Hsz Hle) as [Hi' Hu'].
  exact (conj Hi (conj Hu (conj Hi' Hu'))).
Defined.

(** ** Image versions *)

Lemma od_true_eta (d : optimistic_data true) :
  d = optimistic_data_true (od_id_image_version_ d) (od_id_image_binding_ d)
        (od_erase_ d).
Proof.
  refine (match d as d' in optimistic_data b
                return (match b return optimistic_data b -> Prop with
                        | true => fun d' =>
                            d' = optimistic_data_true (od_id_image_version_ d')
                                   (od_id_image_binding_ d') (od_erase_ d')
                        | false => fun _ => True
                        end d')
          with
          | optimistic_data_true _ _ _ => eq_refl
          | optimistic_data_false => I
          end).
Qed.

Lemma od_false_unique (d : optimistic_data false) : d = optimistic_data_false.
Proof.
  refine (match d as d' in optimistic_data b
                return (match b return optimistic_data b -> Prop with
                        | true => fun _ => True
                        | false => fun d' => d' = optimistic_data_false
                        end d')
          with
          | optimistic_data_true _ _ _ => I
          | optimistic_data_false => eq_refl
          end).
Qed.

Lemma counter_cases {o} (k : counter o) :
  match o return counter o -> Prop with
  | true => fun k =>
      k = select_image \/ k = insert_image \/ k = update_image \/
      k = update_id_image \/ k = id_image \/ k = optimistic_id_image
  | false => fun k =>
      k = select_image \/ k = insert_image \/ k = update_image \/
      k = update_id_image \/ k = id_image
  end k.
Proof.
  destruct k; try (destruct o; auto 10). simpl; auto 10.
Qed.

Lemma slot_cases {o} (k : statement_slot o) :
  match o return statement_slot o -> Prop with
  | true => fun k =>
      k = persist \/ k = find \/ k = update \/ k = erase \/
      k = optimistic_erase
  | false => fun k =>
      k = persist \/ k = find \/ k = update \/ k = erase
  end k.
Proof.
  destruct k; try (destruct o; auto 10). simpl; auto 10.
Qed.

(** C10.  Each of the six version setters returns normally and stores the
    value it is given, whatever the value stored before: the getter of the
    same counter then yields that value, the other counters and every
    other member are as before. *)
Theorem image_version_set_get :
  forall (o : bool) (k : counter o) (v : size_t) (s : object_statements o),
  exists s' : object_statements o,
    set_image_version k v s = Returned tt s' /\
    image_version k s' = v /\
    (forall k' : counter o,
        image_version k' s' =
        if same_counter k k' then v else image_version k' s) /\
    members_but_versions s' = members_but_versions s /\
    od_but_version (od_ s') = od_but_version (od_ s).
Proof.
  intros o k v s.
  destruct k; (eexists; split; [reflexivity|]).
  1-5: (split; [reflexivity|]; split; [|split; reflexivity]);
       intros k'; destruct k'; reflexivity.
  split; [reflexivity|]. split; [|split].
  - intros k'.
    destruct (counter_cases k') as [E|[E|[E|[E|[E|E]]]]]; rewrite E; reflexivity.
  - reflexivity.
  - simpl. generalize (od_ s). intros d. rewrite (od_true_eta d). reflexivity.
Qed.

(** ** Contract faults of the queue *)

Lemma load_delayed_unlocked (T : object_traits.t) {o}
    (loaders : delayed_load -> loader_body)
    (h : list delayed_load) (s : object_statements o) :
  locked s = false -> load_delayed T loaders (h, s) = Aborted.
Proof.
  intros E. unfold load_delayed, bind, gets, assert. simpl.
  rewrite E. reflexivity.
Qed.

(** C4, as the spec states it, fails: on an unlocked cache [delay_load]
    returns normally and the entry is queued. *)
Lemma delay_load_unlocked_no_fault :
  locked example_statements = false /\
  delay_load 1 100 0 None example_statements =
    Returned tt
      (set_delayed_ [delayed_load_ctor 1 100 0 None] example_statements) /\
  delay_load 1 100 0 None example_statements <> Aborted.
Proof.
  split; [reflexivity|]. split; [reflexivity|]. discriminate.
Qed.

(** C4, amended.  [delay_load] makes no check of the lock: locked or not,
    it returns normally, appends its entry and leaves every other member,
    the lock included, as it was.  The assertion faults are [lock ()] on a
    locked cache, [unlock ()] on an unlocked one and [load_delayed ()] on
    an unlocked one. *)
Theorem delay_load_unchecked :
  forall (T : object_traits.t) (o : bool)
         (loaders : delayed_load -> loader_body)
         (i : id_type) (ob : object_ptr) (p : position_type)
         (l : loader_function) (h : list delayed_load)
         (s : object_statements o),
    (exists s' : object_statements o,
        delay_load i ob p l s = Returned tt s' /\
        delayed_ s' = delayed_ s ++ [delayed_load_ctor i ob p l] /\
        members_but_delayed s' = members_but_delayed s) /\
    lock (set_locked_ true s) = Aborted /\
    unlock (set_locked_ false s) = Aborted /\
    load_delayed T loaders (h, set_locked_ false s) = Aborted.
Proof.
  intros T o loaders i ob p l h s. split.
  - eexists. split; [apply delay_load_spec|]. split; reflexivity.
  - split; [|split].
    + rewrite lock_spec. reflexivity.
    + rewrite unlock_spec. reflexivity.
    + apply load_delayed_unlocked. reflexivity.
Qed.

(** ** [auto_lock] *)

(** C3.  On a locked cache the [auto_lock] constructor returns without a
    fault, changes nothing and the object reports [locked () == false];
    destroying an object that does not hold the lock changes nothing.  On
    an unlocked cache the constructor locks it and the object reports
    [locked () == true]; destroying an object that holds the lock unlocks
    the cache and empties the queue, and no loader is invoked. *)
Theorem auto_lock_contract :
  forall (o : bool) (s : object_statements o) (h : list delayed_load),
    auto_lock_ctor s =
      (if locked s
       then Returned {| al_locked_ := false |} s
       else Returned {| al_locked_ := true |} (set_locked_ true s)) /\
    (forall a s', auto_lock_ctor s = Returned a s' ->
        auto_lock_locked a = negb (locked s) /\ locked s' = true) /\
    auto_lock_dtor {| al_locked_ := false |} s = Returned tt s /\
    auto_lock_dtor {| al_locked_ := true |} (set_locked_ true s) =
      Returned tt (set_delayed_ [] (set_locked_ false s)) /\
    on_cache (auto_lock_dtor {| al_locked_ := true |}) (h, set_locked_ true s) =
      Returned tt (h, set_delayed_ [] (set_locked_ false s)) /\
    on_cache (auto_lock_dtor {| al_locked_ := false |}) (h, s) =
      Returned tt (h, s).
Proof.
  intros o s h.
  assert (Hctor : auto_lock_ctor s =
      (if locked s
       then Returned {| al_locked_ := false |} s
       else Returned {| al_locked_ := true |} (set_locked_ true s))).
  { unfold auto_lock_ctor, bind, gets. destruct (locked s) eqn:E.
    - reflexivity.
    - rewrite lock_spec, E. reflexivity. }
  assert (Hdtor : auto_lock_dtor {| al_locked_ := true |} (set_locked_ true s) =
      Returned tt (set_delayed_ [] (set_locked_ false s))).
  { unfold auto_lock_dtor. cbn [al_locked_]. unfold bind.
    rewrite unlock_spec. cbn [locked locked_ set_locked_].
    rewrite clear_delayed_spec. reflexivity. }
  split; [exact Hctor|]. split; [|split; [reflexivity|split; [exact Hdtor|split]]].
  - intros a s' H. rewrite Hctor in H.
    destruct (locked s) eqn:E; inversion H; subst; simpl; auto.
  - unfold on_cache, zoom; simpl. rewrite Hdtor. reflexivity.
  - reflexivity.
Qed.

Lemma auto_lock_contract_witness :
  auto_lock_locked {| al_locked_ := true |} = negb (locked example_statements) /\
  locked (set_locked_ true example_statements) = true.
Proof.
  destruct (auto_lock_contract true example_statements []) as (_ & H & _).
  apply (H {| al_locked_ := true |} (set_locked_ true example_statements)).
  reflexivity.
Defined.

(** ** The optimistic extension *)

(** C9.  The cache of a mapped type holds the [true] specialisation of
    [optimistic_data] exactly when its [managed_optimistic_column_count]
    is nonzero.  The [false] specialisation has a single value and no
    members, and a cache built on it has neither the optimistic id image
    version and binding nor the optimistic erase statement; the [true]
    specialisation holds the id image version, the id image binding and
    the erase statement pointer, and a cache built on it has both the
    binding and [optimistic_erase_statement]. *)
Theorem optimistic_data_selection :
  forall (T : object_traits.t) (s : statements_of T),
    optimistic T = negb (managed_optimistic_column_count T =? 0) /\
    match od_members (od_ s) with
    | None => managed_optimistic_column_count T = 0
    | Some _ => managed_optimistic_column_count T <> 0
    end /\
    (forall d : optimistic_data false,
        d = optimistic_data_false /\ od_members d = None) /\
    (forall d : optimistic_data true,
        od_members d =
        Some (od_id_image_version_ d, od_id_image_binding_ d, od_erase_ d)) /\
    (forall k : counter false, is_optimistic_counter k = false) /\
    (forall k : statement_slot false, is_optimistic_slot k = false) /\
    is_optimistic_counter optimistic_id_image = true /\
    is_optimistic_slot optimistic_erase = true /\
    (forall s1 : object_statements true,
        optimistic_id_image_binding s1 = od_id_image_binding_ (od_ s1) /\
        slot_ptr optimistic_erase s1 = od_erase_ (od_ s1)).
Proof.
  intros T s. split; [reflexivity|]. split.
  - destruct s as [? ? ? ? ? ? ? ? ? ? ? ? d ? ? ? ? ?]; simpl.
    revert d. unfold optimistic.
    destruct (Z.eqb_spec (managed_optimistic_column_count T) 0) as [E|E];
      simpl; intros d.
    + rewrite (od_false_unique d). exact E.
    + rewrite (od_true_eta d). exact E.
  - split; [|split; [|split; [|split]]].
    + intros d. rewrite (od_false_unique d). split; reflexivity.
    + intros d. rewrite (od_true_eta d). reflexivity.
    + intros k. destruct (counter_cases k) as [E|[E|[E|[E|E]]]];
        rewrite E; reflexivity.
    + intros k. destruct (slot_cases k) as [E|[E|[E|E]]];
        rewrite E; reflexivity.
    + repeat split.
Qed.

(** ** Draining the queue *)

Section Drain.

Variable T : object_traits.t.
Context {o : bool}.
Variable loaders : delayed_load -> @loader_body o.

Lemma load_one_spec l rest d0 h (s : object_statements o) :
  load_one T loaders l rest (d0, (h, s)) =
  match invoke T loaders l s with
  | Returned _ s' => Returned tt (rest, (h ++ [l], s'))
  | Thrown e s' => Thrown e (rest, (h ++ [l], s'))
  | Aborted => Aborted
  end.
Proof.
  unfold load_one, bind, modify, on_cache, zoom. simpl.
  destruct (invoke T loaders l s) as [[] s'|e s'|]; reflexivity.
Qed.

(** What the loop has done when it is rem: on return the working list
    is used up and every entry was invoked, in order; on an exception
    the entries before the failing one and the failing one were invoked
    and the ones behind it are still in the working list. *)
Lemma drain_outcome :
  forall dls d0 h (s : object_statements o),
    match drain T loaders dls (d0, (h, s)) with
    | Returned _ (rem, (h', _)) =>
        rem = match dls with [] => d0 | _ :: _ => [] end /\ h' = h ++ dls
    | Thrown _ (rem, (h', _)) =>
        exists pre l, dls = pre ++ l :: rem /\ h' = h ++ pre ++ [l]
    | Aborted => True
    end.
Proof.
  induction dls as [|l rest IH]; intros d0 h s.
  - simpl. rewrite app_nil_r. auto.
  - cbn [drain]. unfold bind at 1. rewrite load_one_spec.
    destruct (invoke T loaders l s) as [[] s1|e s1|]; cbv beta iota.
    + specialize (IH rest (h ++ [l]) s1).
      revert IH.
      match goal with
      | |- _ -> match ?X with _ => _ end =>
          destruct X as [[] [rem [h' s']]|e [rem [h' s']]|]
      end; intros IH; [| |exact I].
      * destruct IH as [Hl Hh]. split.
        -- destruct rest; assumption.
        -- rewrite Hh, <- app_assoc. reflexivity.
      * destruct IH as (pre & l' & Hd & Hh).
        exists (l :: pre), l'. split.
        -- rewrite Hd. reflexivity.
        -- rewrite Hh, <- app_assoc. reflexivity.
    + exists [], l. split; reflexivity.
    + exact I.
Qed.



(** [load_delayed_ ()] in terms of its loop: the guard empties the
    cache's own list and puts back what the working list still holds. *)
Lemma load_delayed__spec h (s : object_statements o) :
  load_delayed_ T loaders (h, s) =
  match drain T loaders (delayed_ s) (delayed_ s, (h, set_delayed_ [] s)) with
  | Returned _ (rem, (h', s')) =>
      Returned tt (h', set_delayed_ rem (set_delayed_ [] s'))
  | Thrown e (rem, (h', s')) =>
      Thrown e (h', set_delayed_ rem (set_delayed_ [] s'))
  | Aborted => Aborted
  end.
Proof.
  unfold load_delayed_, with_local, bind, on_guard, zoom, swap_guard_ctor,
    modify, finally, gets, swap. simpl.
  destruct (drain T loaders (delayed_ s) (delayed_ s, (h, set_delayed_ [] s)))
    as [[] [rem [h' s']]|e [rem [h' s']]|]; simpl; [| |reflexivity].
  - unfold swap_guard_dtor, bind, zoom, modify, swap, ret; simpl.
    rewrite clear_delayed_spec. reflexivity.
  - unfold swap_guard_dtor, bind, zoom, modify, swap; simpl.
    rewrite clear_delayed_spec. reflexivity.
Qed.

Lemma load_delayed_spec h (s : object_statements o) :
  load_delayed T loaders (h, s) =
  if locked s then
    match delayed_ s with
    | [] => Returned tt (h, s)
    | _ :: _ => load_delayed_ T loaders (h, s)
    end
  else Aborted.
Proof.
  unfold load_delayed, bind, gets, assert. simpl.
  destruct (locked s); [|reflexivity]. simpl.
  destruct (delayed_ s); reflexivity.
Qed.


End Drain.




(** ** The swap guard *)

(** C2, as the spec states it, fails: an entry queued by a loader during
    the drain is in the cache's own list when the guard is destroyed, and
    the guard clears that list.  Here the custom loader of the one pending
    entry queues a load of object 3; after [load_delayed] has returned,
    that load was not made and is not pending. *)
Lemma drain_loses_entries_queued_meanwhile :
  body (example_loaders (o := true) (custom_entry 1 1)) =
    [call_delay_load 3 300 2 None] /\
  exists s' : statements_of example_traits,
    load_delayed example_traits example_loaders
      ([], locked_with [custom_entry 1 1]) =
    Returned tt ([custom_entry 1 1], s') /\
    delayed_ s' = [] /\
    ~ In (delayed_load_ctor 3 300 2 None) [custom_entry 1 1] /\
    ~ In (delayed_load_ctor 3 300 2 None) (delayed_ s').
Proof.
  split; [reflexivity|]. eexists. split; [reflexivity|].
  split; [reflexivity|]. split.
  - intros [H|[]]. discriminate H.
  - intros [].
Qed.

(** C2, amended.  The guard's constructor moves the pending list into the
    working list and leaves the cache's own list empty; a [delay_load]
    made while the guard is alive goes to the cache's own list and leaves
    the working list alone.  The loop of [load_delayed_] starts from there,
    and on return and on an exception alike the guard's destructor clears
    the cache's own list and puts back what the working list still holds.
    When [load_delayed] returns, the loader of
    every entry that was pending at its start has been invoked once, in
    order, and the queue is empty.  When it is left by an exception, the
    entries before the failing one and the failing one have been invoked
    once, in order, and exactly the entries behind it are pending again.
    No entry is invoked twice.  Entries queued by loaders during the drain
    are discarded by the guard without being loaded. *)
Theorem drain_guard_accounting :
  forall (T : object_traits.t) (o : bool)
         (loaders : delayed_load -> loader_body)
         (h : list delayed_load) (s : object_statements o),
    swap ([], s) = (delayed_ s, set_delayed_ [] s) /\
    (forall (dl : delayed_loads) i ob p l,
        zoom snd (fun (s1 : object_statements o) (g : guarded) => (fst g, s1))
          (delay_load i ob p l) (dl, s) =
        Returned tt
          (dl, set_delayed_ (delayed_ s ++ [delayed_load_ctor i ob p l]) s)) /\
    load_delayed_ T loaders (h, s) =
      match drain T loaders (delayed_ s) (delayed_ s, (h, set_delayed_ [] s)) with
      | Returned _ (rem, (h', s')) =>
          Returned tt (h', set_delayed_ rem (set_delayed_ [] s'))
      | Thrown e (rem, (h', s')) =>
          Thrown e (h', set_delayed_ rem (set_delayed_ [] s'))
      | Aborted => Aborted
      end /\
    match load_delayed T loaders (h, s) with
    | Returned _ (h', s') => h' = h ++ delayed_ s /\ delayed_ s' = []
    | Thrown _ (h', s') =>
        exists pre l post,
          delayed_ s = pre ++ l :: post /\
          h' = h ++ pre ++ [l] /\
          delayed_ s' = post
    | Aborted => True
    end.
Proof.
  intros T o loaders h s. split; [reflexivity|]. split; [reflexivity|].
  split; [apply load_delayed__spec|].
  rewrite load_delayed_spec. destruct (locked s); [|exact I].
  destruct (delayed_ s) as [|l0 q] eqn:Eq.
  - rewrite app_nil_r. auto.
  - rewrite load_delayed__spec, Eq.
    pose proof (drain_outcome T loaders (l0 :: q) (l0 :: q) h
                  (set_delayed_ [] s)) as Ho.
    revert Ho.
    match goal with
    | |- _ -> match match ?X with _ => _ end with _ => _ end =>
        destruct X as [[] [rem [h' s']]|e [rem [h' s']]|]
    end; intros Ho; [| |exact I].
    + destruct Ho as [-> ->]. auto.
    + destruct Ho as (pre & l & Hd & Hh). exists pre, l, rem. auto.
Qed.

(** ** Properties kept by the interface *)

Lemma preserves_ret {S A} (P : S -> Prop) (a : A) : preserves P (ret a).
Proof. intros s H. exact H. Qed.

Lemma preserves_gets {S A} (P : S -> Prop) (f : S -> A) : preserves P (gets f).
Proof. intros s H. exact H. Qed.

Lemma preserves_throw {S A} (P : S -> Prop) (e : exception) :
  preserves P (@throw S A e).
Proof. intros s H. exact H. Qed.

Lemma preserves_abort {S A} (P : S -> Prop) : preserves P (@abort S A).
Proof. intros s H. exact I. Qed.

Lemma preserves_assert {S} (P : S -> Prop) (b : bool) : preserves P (assert b).
Proof. destruct b; [apply preserves_ret | apply preserves_abort]. Qed.

Lemma preserves_modify {S} (P : S -> Prop) (f : S -> S) :
  (forall s, P s -> P (f s)) -> preserves P (modify f).
Proof. intros Hf s H. apply Hf, H. Qed.

Lemma preserves_bind {S A B} (P : S -> Prop) (m : M S A) (f : A -> M S B) :
  preserves P m -> (forall a, preserves P (f a)) -> preserves P (bind m f).
Proof.
  intros Hm Hf s H. unfold bind. specialize (Hm s H).
  destruct (m s) as [a s'|e s'|]; [apply Hf, Hm | exact Hm | exact I].
Qed.

Lemma preserves_zoom {S R A} (P : S -> Prop) (Q : R -> Prop)
    (proj : S -> R) (put : R -> S -> S) (m : M R A) :
  (forall s, P s -> Q (proj s)) ->
  (forall s r, P s -> Q r -> P (put r s)) ->
  preserves Q m -> preserves P (zoom proj put m).
Proof.
  intros Hproj Hput Hm s H. unfold zoom.
  specialize (Hm (proj s) (Hproj s H)).
  destruct (m (proj s)) as [a r|e r|]; [apply Hput|apply Hput|]; auto.
Qed.

Lemma preserves_finally {S A} (P : S -> Prop) (m : M S A) (d : M S unit) :
  preserves P m -> preserves P d -> preserves P (finally m d).
Proof.
  intros Hm Hd s H. unfold finally. specialize (Hm s H).
  destruct (m s) as [a s'|e s'|]; [| |exact I].
  - apply (preserves_bind P d (fun _ => ret a) Hd); [|exact Hm].
    intros _. apply preserves_ret.
  - specialize (Hd s' Hm). destruct (d s') as [[] s''|e' s''|]; auto.
Qed.

Lemma preserves_with_local {L S A} (P : S -> Prop) (init : L) (m : M (L * S) A) :
  preserves (fun ls => P (snd ls)) m -> preserves P (with_local init m).
Proof.
  intros Hm s H. unfold with_local. specialize (Hm (init, s) H).
  destruct (m (init, s)) as [a ls|e ls|]; exact Hm.
Qed.

Section Preservation.

Variable T : object_traits.t.
Context {o : bool}.
Variable loaders : delayed_load -> @loader_body o.

(** A property of the cache that does not depend on the queue, and the
    calls that keep it. *)
Variable P : object_statements o -> Prop.
Variable good : call o -> Prop.

Hypothesis P_delayed : forall d s, P s -> P (set_delayed_ d s).
Hypothesis exec_good : forall c, good c -> preserves P (exec T c).
Hypothesis loaders_good : forall l, Forall good (body (loaders l)).

Lemma exec_all_preserves :
  forall cs, Forall good cs -> preserves P (exec_all T cs).
Proof.
  induction cs as [|c cs IH]; intros Hcs.
  - apply preserves_ret.
  - inversion Hcs; subst. cbn [exec_all].
    apply preserves_bind; [apply exec_good; assumption|].
    intros _. apply IH. assumption.
Qed.

Lemma invoke_preserves l : preserves P (invoke T loaders l).
Proof.
  unfold invoke. apply preserves_bind.
  - apply exec_all_preserves, loaders_good.
  - intros _. destruct (raises (loaders l));
      [apply preserves_throw | apply preserves_ret].
Qed.

Lemma clear_delayed_preserves : preserves P (@clear_delayed o).
Proof.
  intros s H. rewrite clear_delayed_spec. apply P_delayed, H.
Qed.

Lemma drain_preserves :
  forall dls,
    preserves (fun d : drain_state => P (snd (snd d))) (drain T loaders dls).
Proof.
  induction dls as [|l rest IH].
  - apply preserves_ret.
  - cbn [drain]. apply preserves_bind; [|intros _; exact IH].
    unfold load_one. apply preserves_bind.
    + apply preserves_modify. intros d H. exact H.
    + intros _.
      apply preserves_zoom with (Q := fun w : traced => P (snd w)); auto.
      unfold on_cache. apply preserves_zoom with (Q := P); auto.
      apply invoke_preserves.
Qed.

Lemma load_delayed__preserves :
  preserves (fun w : traced => P (snd w)) (load_delayed_ T loaders).
Proof.
  unfold load_delayed_. apply preserves_with_local.
  apply preserves_bind.
  - unfold on_guard.
    apply preserves_zoom with (Q := fun g : guarded => P (snd g)); auto.
    unfold swap_guard_ctor. apply preserves_modify.
    intros g H. apply P_delayed, H.
  - intros _. apply preserves_finally.
    + apply preserves_bind; [apply preserves_gets|].
      intros dls. apply drain_preserves.
    + unfold on_guard.
      apply preserves_zoom with (Q := fun g : guarded => P (snd g)); auto.
      unfold swap_guard_dtor. apply preserves_bind.
      * apply preserves_zoom with (Q := P); auto.
        apply clear_delayed_preserves.
      * intros _. apply preserves_modify. intros g H. apply P_delayed, H.
Qed.

Lemma load_delayed_preserves :
  preserves (fun w : traced => P (snd w)) (load_delayed T loaders).
Proof.
  unfold load_delayed.
  apply preserves_bind; [apply preserves_gets|]. intros l.
  apply preserves_bind; [apply preserves_assert|]. intros _.
  apply preserves_bind; [apply preserves_gets|]. intros d.
  destruct d; [apply preserves_ret | apply load_delayed__preserves].
Qed.

Lemma step_preserves x :
  good_op good x -> preserves (fun w : traced => P (snd w)) (step T loaders x).
Proof.
  destruct x as [c|]; intros Hx; cbn [step].
  - unfold on_cache. apply preserves_zoom with (Q := P); auto.
  - apply preserves_bind; [apply load_delayed_preserves|].
    intros _. apply preserves_ret.
Qed.

Lemma run_preserves :
  forall xs w evs w',
    Forall (good_op good) xs -> P (snd w) ->
    run T loaders xs w = (evs, Some w') -> P (snd w').
Proof.
  induction xs as [|x xs IH]; intros w evs w' Hxs Hw Hrun.
  - inversion Hrun; subst. exact Hw.
  - inversion Hxs as [|? ? Hx Hxs']; subst. cbn [run] in Hrun.
    pose proof (step_preserves x Hx w Hw) as Hs.
    destruct (step T loaders x w) as [v w1|e w1|]; [| |discriminate].
    + destruct (run T loaders xs w1) as [evs1 r1] eqn:E.
      inversion Hrun; subst. eapply IH; eauto.
    + destruct (run T loaders xs w1) as [evs1 r1] eqn:E.
      inversion Hrun; subst. eapply IH; eauto.
Qed.

End Preservation.

(** ** What a call does to the counters and the statements *)

Ltac unfold_call :=
  unfold exec, the_statement, persist_statement, find_statement,
    update_statement, erase_statement, optimistic_erase_statement,
    container_statment_cache, get, allocate, on_conn, deref,
    lock, unlock, delay_load, clear_delayed, clear_delayed_,
    set_image_version, set_select_image_version, set_insert_image_version,
    set_update_image_version, set_update_id_image_version,
    set_id_image_version, set_optimistic_id_image_version,
    new_statement, new_container_statement_cache, construct,
    assert, zoom, bind, gets, modify, ret, abort.

Ltac split_match :=
  match goal with
  | |- context [match ?x with _ => _ end] =>
      lazymatch x with
      | context [match _ with _ => _ end] => fail
      | _ => destruct x eqn:?
      end
  end.

Ltac split_matches := repeat (simpl; split_match); simpl.

(** A call changes a counter only by storing into it. *)
Lemma exec_image_version (T : object_traits.t) {o} (c : call o)
    (k : counter o) (s : object_statements o) :
  match exec T c s with
  | Returned _ s' | Thrown _ s' =>
      image_version k s' =
      match c with
      | call_set_image_version k' v =>
          if same_counter k k' then v else image_version k s
      | _ => image_version k s
      end
  | Aborted => True
  end.
Proof.
  destruct o.
  - destruct (counter_cases k) as [E|[E|[E|[E|[E|E]]]]]; subst k;
      destruct c as [| | | | | k'|k' v|k'|];
      try (destruct (counter_cases k') as [E|[E|[E|[E|[E|E]]]]]; subst k');
      try (destruct (slot_cases k') as [E|[E|[E|[E|E]]]]; subst k');
      unfold_call; split_matches; auto.
  - destruct (counter_cases k) as [E|[E|[E|[E|E]]]]; subst k;
      destruct c as [| | | | | k'|k' v|k'|];
      try (destruct (counter_cases k') as [E|[E|[E|[E|E]]]]; subst k');
      try (destruct (slot_cases k') as [E|[E|[E|E]]]; subst k');
      unfold_call; split_matches; auto.
Qed.

Lemma image_version_set_delayed {o} (k : counter o) d (s : object_statements o) :
  image_version k (set_delayed_ d s) = image_version k s.
Proof.
  destruct o.
  - destruct (counter_cases k) as [E|[E|[E|[E|[E|E]]]]]; subst k; reflexivity.
  - destruct (counter_cases k) as [E|[E|[E|[E|E]]]]; subst k; reflexivity.
Qed.

Lemma exec_keeps_stored (T : object_traits.t) {o} (Q : size_t -> Prop)
    (k : counter o) (c : call o) :
  call_stores Q k c ->
  preserves (fun s => Q (image_version k s)) (exec T c).
Proof.
  intros Hc s Hs. pose proof (exec_image_version T c k s) as H.
  destruct (exec T c s) as [v s'|e s'|]; [| |exact I]; rewrite H;
    destruct c; auto; simpl in Hc;
    destruct (same_counter k k0); auto.
Qed.

(** C8, as the spec states it, fails: a version setter called with a value
    below the stored one lowers the counter. *)
Lemma image_version_can_decrease :
  image_version insert_image example_statements = 5 /\
  exists s' : statements_of example_traits,
    run example_traits example_loaders
      [op_call (call_set_image_version insert_image 3)]
      ([], example_statements) =
    ([returned v_void], Some ([], s')) /\
    image_version insert_image s' = 3 /\
    image_version insert_image s' < image_version insert_image example_statements.
Proof.
  split; [reflexivity|]. eexists. split; [reflexivity|].
  split; reflexivity.
Qed.

(** C8, amended.  A call changes a stored image-version counter only by
    storing into it: a setter leaves in its counter the value it was given,
    every other call leaves every counter as it was.  So across any
    sequence of public operations a counter holds its initial value or a
    value that the client or a loader passed to its setter: whatever holds
    of the initial value and of every value stored holds of the final one.
    In particular the counter does not drop below a bound that all of them
    respect, and a single call lowers a counter only if it is a call of its
    setter with a value below the stored one.  The cache itself checks
    nothing. *)
Theorem image_version_changes_only_by_setter :
  forall (T : object_traits.t) (o : bool)
         (loaders : delayed_load -> loader_body) (k : counter o),
    (forall (c : call o) (s : object_statements o),
        match exec T c s with
        | Returned _ s' | Thrown _ s' =>
            image_version k s' =
            match c with
            | call_set_image_version k' v =>
                if same_counter k k' then v else image_version k s
            | _ => image_version k s
            end
        | Aborted => True
        end) /\
    (forall (Q : size_t -> Prop) (xs : list op) (w : traced)
            (evs : list event) (w' : traced),
        Q (image_version k (snd w)) ->
        Forall (op_stores Q k) xs ->
        (forall l, Forall (call_stores Q k) (body (loaders l))) ->
        run T loaders xs w = (evs, Some w') ->
        Q (image_version k (snd w'))) /\
    (forall (c : call o) (s : object_statements o),
        call_stores (fun v => image_version k s <= v) k c ->
        match exec T c s with
        | Returned _ s' | Thrown _ s' => image_version k s <= image_version k s'
        | Aborted => True
        end).
Proof.
  intros T o loaders k. split; [|split].
  - intros c s. apply exec_image_version.
  - intros Q xs w evs w' Hw Hxs Hl Hrun.
    apply (run_preserves T loaders (fun s => Q (image_version k s))
             (call_stores Q k)) with (xs := xs) (w := w) (evs := evs); auto.
    + intros d s H. rewrite image_version_set_delayed. exact H.
    + intros c Hc. apply exec_keeps_stored, Hc.
  - intros c s Hc.
    apply (exec_keeps_stored T (fun v => image_version k s <= v) k c Hc s).
    apply Z.le_refl.
Qed.

Lemma image_version_changes_only_by_setter_witness :
  exists (evs : list event) (w' : traced),
    run example_traits example_loaders
      [op_call (call_set_image_version insert_image 7);
       op_call (call_statement persist);
       op_load_delayed]
      ([], locked_with [custom_entry 1 1; custom_entry 2 2]) =
    (evs, Some w') /\
    5 <= image_version insert_image (snd w').
Proof.
  eexists. eexists. split; [vm_compute; reflexivity|].
  destruct (image_version_changes_only_by_setter example_traits true
              example_loaders insert_image) as (_ & H & _).
  eapply (H (fun v => 5 <= v)
            [op_call (call_set_image_version insert_image 7);
             op_call (call_statement persist);
             op_load_delayed]
            ([], locked_with [custom_entry 1 1; custom_entry 2 2])).
  - simpl. lia.
  - constructor; [simpl; intros _; lia|].
    constructor; [exact I|]. constructor; [exact I|]. constructor.
  - intros l. unfold example_loaders.
    repeat match goal with
           | |- context [match ?x with _ => _ end] => destruct x
           end; repeat constructor.
  - vm_compute. reflexivity.
Defined.

(** ** Lazily built statements *)

Ltac slot_cases_in o k :=
  destruct o;
  [ destruct (slot_cases k) as [?E|[?E|[?E|[?E|?E]]]]
  | destruct (slot_cases k) as [?E|[?E|[?E|?E]]] ];
  subst k.









(** *** The container statement cache *)






(** *** Sequences of operations *)

Section Runs.

Variable T : object_traits.t.
Context {o : bool}.
Variable loaders : delayed_load -> @loader_body o.






End Runs.



(** ** Further properties of the lock *)

Lemma set_locked_same {o} (s : object_statements o) :
  set_locked_ (locked_ s) s = s.
Proof. destruct s; reflexivity. Qed.

Lemma set_delayed_same {o} (s : object_statements o) :
  set_delayed_ (delayed_ s) s = s.
Proof. destruct s; reflexivity. Qed.

(** X1.  On an unlocked cache [lock ()] followed by [unlock ()] gives the
    cache back exactly as it was, and on a locked cache so does
    [unlock ()] followed by [lock ()]; in the opposite states the pair
    fails its first assertion. *)
Theorem lock_unlock_round_trip :
  forall (o : bool) (s : object_statements o),
    (lock ;; unlock) s = (if locked s then Aborted else Returned tt s) /\
    (unlock ;; lock) s = (if locked s then Returned tt s else Aborted).
Proof.
  intros o s. unfold bind. rewrite lock_spec, unlock_spec. unfold locked.
  destruct (locked_ s) eqn:E; split; try reflexivity.
  - rewrite lock_spec. simpl. f_equal.
    destruct s; simpl in *; subst; reflexivity.
  - rewrite unlock_spec. simpl. f_equal.
    destruct s; simpl in *; subst; reflexivity.
Qed.

Lemma last_cons {A} (a d : A) (l : list A) : last (a :: l) d = last l a.
Proof.
  revert a d. induction l as [|b l IH]; intros a d; [reflexivity|].
  change (last (a :: b :: l) d) with (last (b :: l) d).
  rewrite (IH b d), (IH b a). reflexivity.
Qed.

Lemma exec_lock_call (T : object_traits.t) {o} (b : bool)
    (s : object_statements o) :
  exec T (lock_call b) s =
  if Bool.eqb b (locked s) then Aborted else Returned v_void (set_locked_ b s).
Proof.
  destruct b; simpl; unfold bind; [rewrite lock_spec | rewrite unlock_spec];
    destruct (locked s); reflexivity.
Qed.

(** X2.  A series of [lock ()] and [unlock ()] calls runs through without
    a failed assertion exactly when the calls alternate, beginning with
    the one the current state allows; it then leaves the lock as the last
    call set it and nothing else changed. *)
Theorem lock_calls_alternate :
  forall (T : object_traits.t) (o : bool) (bs : list bool)
         (s : object_statements o),
    exec_all T (map lock_call bs) s =
    if alternates (locked s) bs
    then Returned tt (set_locked_ (last bs (locked s)) s)
    else Aborted.
Proof.
  intros T o bs. induction bs as [|b bs IH]; intros s.
  - simpl. unfold ret, locked. rewrite set_locked_same. reflexivity.
  - cbn [map exec_all alternates]. unfold bind at 1.
    rewrite exec_lock_call.
    destruct (Bool.eqb b (locked s)) eqn:E; [reflexivity|].
    cbn [negb andb]. rewrite IH. rewrite last_cons.
    change (locked (set_locked_ b s)) with b.
    destruct (alternates b bs); reflexivity.
Qed.

(** X3.  A cache whose base was just constructed is unlocked: [lock ()]
    succeeds on it, while [unlock ()] and [load_delayed ()] fail their
    assertion, whatever is pending. *)
Theorem constructed_unlocked :
  forall (T : object_traits.t) (o : bool)
         (loaders : delayed_load -> loader_body)
         (conn : connection) (rest : object_statements o)
         (h : list delayed_load),
    let s := object_statements_base_ctor conn rest in
    locked s = false /\
    conn_ s = conn /\
    lock s = Returned tt (set_locked_ true s) /\
    unlock s = Aborted /\
    load_delayed T loaders (h, s) = Aborted.
Proof.
  intros T o loaders conn rest h s.
  split; [reflexivity|]. split; [reflexivity|].
  split; [rewrite lock_spec; reflexivity|].
  split; [rewrite unlock_spec; reflexivity|].
  apply load_delayed_unlocked. reflexivity.
Qed.

(** ** Further properties of the queue *)

(** X4.  With nothing pending, [load_delayed ()] on a locked cache returns
    at once: no loader is invoked and the cache is unchanged, whatever the
    loaders are.  On an unlocked cache it fails its assertion even though
    there is nothing to load. *)
Theorem load_delayed_nothing_pending :
  forall (T : object_traits.t) (o : bool)
         (loaders : delayed_load -> loader_body)
         (h : list delayed_load) (s : object_statements o),
    delayed_ s = [] ->
    load_delayed T loaders (h, s) =
    if locked s then Returned tt (h, s) else Aborted.
Proof.
  intros T o loaders h s E. rewrite load_delayed_spec, E. reflexivity.
Qed.

Lemma load_delayed_nothing_pending_witness :
  load_delayed example_traits example_loaders ([entry 7], locked_with []) =
  Returned tt ([entry 7], locked_with []).
Proof.
  apply (load_delayed_nothing_pending example_traits true example_loaders
           [entry 7] (locked_with [])).
  reflexivity.
Defined.

(** X5.  [swap] is its own inverse.  A guard constructed on an empty
    working list and destroyed with nothing queued in between leaves the
    cache exactly as it was.  A guard destroyed while the cache's own list
    is empty puts what is left of the working list back as the pending
    queue and leaves the working list empty. *)
Theorem swap_guard_round_trip :
  forall (o : bool) (dl : delayed_loads) (s : object_statements o),
    swap (swap (dl, s)) = (dl, s) /\
    (swap_guard_ctor ;; swap_guard_dtor) ([], s) = Returned tt ([], s) /\
    swap_guard_dtor (dl, set_delayed_ [] s) =
      Returned tt ([], set_delayed_ dl s).
Proof.
  intros o dl s. split; [|split].
  - destruct s; reflexivity.
  - destruct s; reflexivity.
  - reflexivity.
Qed.

(** ** What calls leave alone *)





Ltac frame_cases :=
  let x := fresh "x" in
  intros x;
  first [ destruct (counter_cases x) as [?E|[?E|[?E|[?E|[?E|?E]]]]]
        | destruct (counter_cases x) as [?E|[?E|[?E|[?E|?E]]]]
        | destruct (slot_cases x) as [?E|[?E|[?E|[?E|?E]]]]
        | destruct (slot_cases x) as [?E|[?E|[?E|?E]]] ];
  subst x; simpl; auto.

(** X7.  A statement accessor never fails an assertion and needs no lock.
    Whether it returns or its constructor throws, it leaves the lock, the
    pending queue, every image version, the container statement cache and
    the other four statement slots as they were. *)
Theorem the_statement_frame :
  forall (T : object_traits.t) (o : bool) (k : statement_slot o)
         (s : object_statements o),
    match the_statement T k s with
    | Returned _ s' | Thrown _ s' =>
        locked s' = locked s /\
        delayed_ s' = delayed_ s /\
        container_statement_cache_ s' = container_statement_cache_ s /\
        caches (conn_ s') = caches (conn_ s) /\
        (forall c : counter o, image_version c s' = image_version c s) /\
        (forall k' : statement_slot o,
            slot_ptr k' s' =
            if same_slot k k' then slot_ptr k s' else slot_ptr k' s)
    | Aborted => False
    end.
Proof.
  intros T o k s.
  slot_cases_in o k; unfold_call; split_matches;
    try discriminate; repeat split; auto; frame_cases.
Qed.

(** X8.  Two stores into the same counter leave the value of the second;
    stores into different counters can be made in either order. *)
Theorem image_version_stores_compose :
  forall (o : bool) (k k' : counter o) (v v' : size_t)
         (s : object_statements o),
    (set_image_version k v ;; set_image_version k v') s =
      set_image_version k v' s /\
    (same_counter k k' = false ->
     (set_image_version k v ;; set_image_version k' v') s =
     (set_image_version k' v' ;; set_image_version k v) s).
Proof.
  intros o k k' v v' s. destruct o.
  - destruct (counter_cases k) as [E|[E|[E|[E|[E|E]]]]]; subst k;
      (split; [reflexivity|]);
      destruct (counter_cases k') as [E|[E|[E|[E|[E|E]]]]]; subst k';
      intros H; try discriminate H; reflexivity.
  - destruct (counter_cases k) as [E|[E|[E|[E|E]]]]; subst k;
      (split; [reflexivity|]);
      destruct (counter_cases k') as [E|[E|[E|[E|E]]]]; subst k';
      intros H; try discriminate H; reflexivity.
Qed.

Lemma image_version_stores_compose_witness :
  (set_image_version insert_image 4 ;; set_image_version optimistic_id_image 6)
    example_statements =
  (set_image_version optimistic_id_image 6 ;; set_image_version insert_image 4)
    example_statements.
Proof.
  apply (proj2 (image_version_stores_compose true insert_image
                  optimistic_id_image 4 6 example_statements)).
  reflexivity.
Defined.

(** ** Further properties of the column counts *)

Lemma column_counts_exact (T : object_traits.t) :
  object_traits.counts_are_size_t T ->
  object_traits.inverse_column_count T
    + object_traits.managed_optimistic_column_count T
    + object_traits.id_column_count T
    + object_traits.readonly_column_count T
    <= object_traits.column_count T ->
  insert_column_count T =
    object_traits.column_count T - object_traits.inverse_column_count T
    - object_traits.managed_optimistic_column_count T /\
  update_column_count T =
    object_traits.column_count T - object_traits.inverse_column_count T
    - object_traits.managed_optimistic_column_count T
    - object_traits.id_column_count T - object_traits.readonly_column_count T.
Proof.
  intros (Ht & Hi & Hm & Hd & Hr) Hle. unfold is_size_t in *.
  unfold update_column_count, insert_column_count.
  rewrite !size_t_sub_sub.
  rewrite (Z.mod_small (object_traits.column_count T
                        - object_traits.inverse_column_count T
                        - object_traits.managed_optimistic_column_count T))
    by lia.
  split; [reflexivity|]. apply Z.mod_small. lia.
Qed.

(** X9.  When the inverse, managed optimistic, id and readonly columns are
    among the columns counted in the total, the derived counts are ordered:
    [0 <= update <= insert <= select], and all are [std::size_t] values. *)
Theorem column_counts_ordered :
  forall T : object_traits.t,
    object_traits.counts_are_size_t T ->
    object_traits.inverse_column_count T
      + object_traits.managed_optimistic_column_count T
      + object_traits.id_column_count T
      + object_traits.readonly_column_count T
      <= object_traits.column_count T ->
    0 <= update_column_count T <= insert_column_count T /\
    insert_column_count T <= select_column_count T /\
    is_size_t (select_column_count T).
Proof.
  intros T Hsz Hle.
  destruct (column_counts_exact T Hsz Hle) as [Hi Hu].
  destruct Hsz as (Ht & Hin & Hm & Hd & Hr). unfold is_size_t in *.
  rewrite Hi, Hu. unfold select_column_count. lia.
Qed.

Lemma example_traits_counts :
  object_traits.counts_are_size_t example_traits /\
  object_traits.inverse_column_count example_traits
    + object_traits.managed_optimistic_column_count example_traits
    + object_traits.id_column_count example_traits
    + object_traits.readonly_column_count example_traits
    <= object_traits.column_count example_traits.
Proof.
  unfold object_traits.counts_are_size_t, is_size_t.
  rewrite size_t_modulus_value. simpl. lia.
Qed.

Lemma column_counts_ordered_witness :
  0 <= update_column_count example_traits <= insert_column_count example_traits /\
  insert_column_count example_traits <= select_column_count example_traits /\
  is_size_t (select_column_count example_traits).
Proof.
  apply (column_counts_ordered example_traits);
    [exact (proj1 example_traits_counts) | exact (proj2 example_traits_counts)].
Defined.

(** X10.  In [std::size_t] arithmetic, for every descriptor, the update
    count is [total - inverse - managed_optimistic - id - readonly] and the
    bound of [update_image_bind_], which adds the id and managed optimistic
    columns back, is [total - inverse - readonly]; when the subtracted
    columns are among the total these are the plain integers and the bound
    does not exceed that of [select_image_bind_]. *)
Theorem update_image_bind_bound :
  forall T : object_traits.t,
    update_column_count T =
      (object_traits.column_count T - object_traits.inverse_column_count T
       - object_traits.managed_optimistic_column_count T
       - object_traits.id_column_count T
       - object_traits.readonly_column_count T) mod size_t_modulus /\
    update_image_bind_size T =
      (object_traits.column_count T - object_traits.inverse_column_count T
       - object_traits.readonly_column_count T) mod size_t_modulus /\
    (object_traits.counts_are_size_t T ->
     object_traits.inverse_column_count T
       + object_traits.managed_optimistic_column_count T
       + object_traits.id_column_count T
       + object_traits.readonly_column_count T
       <= object_traits.column_count T ->
     update_image_bind_size T =
       object_traits.column_count T - object_traits.inverse_column_count T
       - object_traits.readonly_column_count T /\
     update_image_bind_size T <= select_image_bind_size T).
Proof.
  intros T.
  assert (Hu : update_column_count T =
      (object_traits.column_count T - object_traits.inverse_column_count T
       - object_traits.managed_optimistic_column_count T
       - object_traits.id_column_count T
       - object_traits.readonly_column_count T) mod size_t_modulus).
  { unfold update_column_count, insert_column_count.
    rewrite !size_t_sub_sub.
    match goal with
    | |- (?a mod ?m - ?b - ?c) mod ?m = _ =>
        replace (a mod m - b - c) with (a mod m - (b + c)) by ring
    end.
    rewrite Zminus_mod_idemp_l. f_equal. ring. }
  assert (Hb : update_image_bind_size T =
      (object_traits.column_count T - object_traits.inverse_column_count T
       - object_traits.readonly_column_count T) mod size_t_modulus).
  { unfold update_image_bind_size, size_t_add, id_column_count,
      managed_optimistic_column_count.
    rewrite Hu. rewrite Zplus_mod_idemp_l, <- Z.add_assoc, Zplus_mod_idemp_l.
    f_equal. ring. }
  split; [exact Hu|]. split; [exact Hb|].
  intros (Ht & Hin & Hm & Hd & Hr) Hle. unfold is_size_t in *.
  rewrite Hb. unfold select_image_bind_size, select_column_count.
  rewrite Z.mod_small by lia. lia.
Qed.

Lemma update_image_bind_bound_witness :
  update_image_bind_size example_traits = 10 - 2 - 1 /\
  update_image_bind_size example_traits <= select_image_bind_size example_traits.
Proof.
  apply (proj2 (proj2 (update_image_bind_bound example_traits)));
    [exact (proj1 example_traits_counts) | exact (proj2 example_traits_counts)].
Defined.

(** X11.  When more columns are subtracted than the total holds, the
    insert count wraps around: it is [total - inverse - managed_optimistic
    + 2^64] and exceeds the select count. *)
Theorem insert_column_count_wraps :
  forall T : object_traits.t,
    object_traits.counts_are_size_t T ->
    object_traits.column_count T <
      object_traits.inverse_column_count T
      + object_traits.managed_optimistic_column_count T ->
    object_traits.inverse_column_count T
      + object_traits.managed_optimistic_column_count T < size_t_modulus ->
    insert_column_count T =
      object_traits.column_count T - object_traits.inverse_column_count T
      - object_traits.managed_optimistic_column_count T + size_t_modulus /\
    select_column_count T < insert_column_count T.
Proof.
  intros T (Ht & Hin & Hm & Hd & Hr) Hlt Hsum. unfold is_size_t in *.
  assert (E : insert_column_count T =
      object_traits.column_count T - object_traits.inverse_column_count T
      - object_traits.managed_optimistic_column_count T + size_t_modulus).
  { unfold insert_column_count. rewrite size_t_sub_sub.
    rewrite <- (Z_mod_plus_full _ 1). rewrite Z.mul_1_l.
    apply Z.mod_small. lia. }
  split; [exact E|]. rewrite E. unfold select_column_count. lia.
Qed.

Lemma insert_column_count_wraps_witness :
  insert_column_count underflowing_traits = 1 - 2 - 0 + size_t_modulus /\
  select_column_count underflowing_traits < insert_column_count underflowing_traits.
Proof.
  apply (insert_column_count_wraps underflowing_traits).
  - unfold object_traits.counts_are_size_t, is_size_t.
    rewrite size_t_modulus_value. simpl. lia.
  - simpl. lia.
  - rewrite size_t_modulus_value. simpl. lia.
Defined.

(** ** Life of a [container_statement_cache_ptr] *)

Ltac unfold_ptr :=
  unfold container_statement_cache_ptr_dtor, get, allocate,
    new_container_statement_cache, delete_container_statement_cache,
    construct, zoom, bind, gets, modify, ret, abort.

Lemma get_keeps_accounted (c0 : connection) (id : binding_ref) (s : csc_state) :
  ptr_accounted c0 s ->
  match get id s with
  | Returned q s' => ptr_accounted c0 s' /\ p_ (fst s') = Some q
  | Thrown _ s' => ptr_accounted c0 s' /\ p_ (fst s') = None
  | Aborted => False
  end.
Proof.
  unfold ptr_accounted. destruct s as [cp c]. simpl. intros [Hr Hp].
  revert Hp. unfold_ptr. split_matches; intros Hp; simpl;
    try discriminate; try congruence; auto.
  all: try (rewrite ?Hp; split; [split; auto|]; congruence).
Qed.

Lemma get_repeatedly_accounted (c0 : connection) (id : binding_ref) :
  forall n s,
    ptr_accounted c0 s ->
    exists s', get_repeatedly n id s = Some s' /\ ptr_accounted c0 s'.
Proof.
  induction n as [|n IH]; intros s Hs.
  - exists s. split; [reflexivity | exact Hs].
  - cbn [get_repeatedly]. pose proof (get_keeps_accounted c0 id s Hs) as Hg.
    destruct (get id s) as [q s1|e s1|]; [| |destruct Hg];
      apply IH; apply Hg.
Qed.

(** X12.  A [container_statement_cache_ptr] that is constructed, asked for
    its cache any number of times (some of which may throw) and then
    destroyed never dereferences a null pointer or an unset deleter, has
    built at most one cache, and its destructor deletes exactly the cache
    that was built, if any: afterwards every cache built on the connection
    has been released once. *)
Theorem container_statement_cache_ptr_lifecycle :
  forall (n : nat) (id : binding_ref) (c0 : connection),
    caches c0 = released c0 ->
    exists s : csc_state,
      get_repeatedly n id (container_statement_cache_ptr_ctor, c0) = Some s /\
      (List.length (caches (snd s)) <= S (List.length (caches c0)))%nat /\
      exists s' : csc_state,
        container_statement_cache_ptr_dtor s = Returned tt s' /\
        caches (snd s') = caches (snd s) /\
        released (snd s') = caches (snd s').
Proof.
  intros n id c0 H0.
  destruct (get_repeatedly_accounted c0 id n
              (container_statement_cache_ptr_ctor, c0)) as (s & Hs & Ha).
  { split; reflexivity. }
  exists s. split; [exact Hs|].
  destruct s as [cp c]. unfold ptr_accounted in Ha. simpl in Ha.
  destruct Ha as [Hr Hp]. simpl.
  destruct (p_ cp) as [q|] eqn:E.
  - destruct Hp as [Hd Hc]. split.
    + rewrite Hc, List.length_app. simpl. lia.
    + unfold_ptr. simpl. rewrite E. simpl. rewrite Hd. simpl.
      rewrite E. simpl.
      eexists. split; [reflexivity|]. simpl.
      split; [reflexivity|]. rewrite Hr, Hc, H0. reflexivity.
  - split.
    + rewrite Hp. lia.
    + unfold_ptr. simpl. rewrite E.
      eexists. split; [reflexivity|]. simpl.
      split; [reflexivity|]. rewrite Hr, Hp, H0. reflexivity.
Qed.

Lemma container_statement_cache_ptr_lifecycle_witness :
  exists s s' : csc_state,
    get_repeatedly 3 id_image_binding_ref
      (container_statement_cache_ptr_ctor, faulty_connection) = Some s /\
    container_statement_cache_ptr_dtor s = Returned tt s' /\
    released (snd s') = caches (snd s').
Proof.
  destruct (container_statement_cache_ptr_lifecycle 3 id_image_binding_ref
              faulty_connection eq_refl)
    as (s & Hs & _ & s' & Hd & _ & Hr).
  exists s, s'. split; [exact Hs|]. split; [exact Hd | exact Hr].
Defined.

(** X13.  [container_statment_cache ()] never fails an assertion and needs
    no lock.  Whether it returns or the constructor of the nested cache
    throws, it releases nothing and leaves the lock, the pending queue,
    every image version, every statement slot and the prepared statements
    as they were. *)
Theorem container_statment_cache_frame :
  forall (o : bool) (s : object_statements o),
    match container_statment_cache s with
    | Returned _ s' | Thrown _ s' =>
        locked s' = locked s /\
        delayed_ s' = delayed_ s /\
        prepared (conn_ s') = prepared (conn_ s) /\
        released (conn_ s') = released (conn_ s) /\
        (forall c : counter o, image_version c s' = image_version c s) /\
        (forall k : statement_slot o, slot_ptr k s' = slot_ptr k s)
    | Aborted => False
    end.
Proof.
  intros o s.
  destruct o; unfold_call; split_matches;
    try discriminate; try congruence; repeat split; auto; frame_cases.
Qed.

(** X14.  A statement accessor adds nothing to what its constructor
    throws: on a null slot, when the constructor throws [e], the accessor
    is left by that same [e], nothing is prepared and the slot stays null,
    so that a later call tries again; when the constructor succeeds the
    accessor returns. *)
Theorem the_statement_propagates :
  forall (T : object_traits.t) (o : bool) (k : statement_slot o)
         (s : object_statements o),
    slot_ptr k s = None ->
    match faults (conn_ s) with
    | Some e :: fs =>
        exists s', the_statement T k s = Thrown e s' /\
                   slot_ptr k s' = None /\
                   prepared (conn_ s') = prepared (conn_ s) /\
                   faults (conn_ s') = fs
    | None :: fs =>
        exists st s', the_statement T k s = Returned st s' /\
                      slot_ptr k s' = Some st /\
                      faults (conn_ s') = fs
    | [] =>
        exists st s', the_statement T k s = Returned st s' /\
                      slot_ptr k s' = Some st /\
                      faults (conn_ s') = []
    end.
Proof.
  intros T o k s.
  slot_cases_in o k; simpl; intros H; unfold_call; simpl; rewrite H;
    destruct (faults (conn_ s)) as [|[e|] fs]; simpl;
    repeat eexists; simpl; auto.
Qed.

Lemma the_statement_propagates_witness :
  exists s' : statements_of example_traits,
    the_statement example_traits find
      (set_conn_ faulty_connection example_statements) =
    Thrown "out of memory"%string s' /\
    slot_ptr find s' = None /\
    prepared (conn_ s') = [] /\
    faults (conn_ s') = [None].
Proof.
  apply (the_statement_propagates example_traits true find
           (set_conn_ faulty_connection example_statements)).
  reflexivity.
Defined.
